(** * analysis.py: tabulation of event streams and the statistics drawn from the table

    A shallow embedding of [src/analysis.py].  The script reads JSON event
    logs, flattens them into one table ([tabulate]), and derives counts,
    gap times, a time-of-day histogram and co-occurrence pairs from it.

    - Part 1 models the Python values that [json.load] returns and the
      function [tabulate] with the exceptions it can raise.
    - Part 2 models the table as a list of typed rows and the pandas /
      numpy / collections operations the analysis functions call.
    - Part 3 models the functions of the script, and [main] as a function
      from the loaded files to what the run prints and writes and how it ends.
    - Parts 4 to 8 hold the notions the statements use and sample data.
    - Parts 9 to 13 hold the statements on the claims and their proofs.
    - Parts 14 to 17 hold further properties of the functions. *)

From Stdlib Require Import ZArith QArith Qround Lia.
From Stdlib Require Import Sorting.Sorted Sorting.Permutation.
From stdpp Require Import base option list sorting countable gmap strings.

Set Warnings "-register-all".

Open Scope Z_scope.
Open Scope string_scope.
Open Scope list_scope.

(** * Part 1: Python values and [tabulate] *)

Module Py.

(** The values [json.load] builds: [None], [bool], [int], [str], [list] and
    [dict] with string keys.  A dict is kept as its items in insertion
    order; [json.load] never produces two items with one key.  JSON numbers
    with a fraction or an exponent (Python floats) are not in the model. *)
Inductive json : Type :=
| JNull
| JBool (b : bool)
| JInt (n : Z)
| JStr (s : string)
| JArr (xs : list json)
| JObj (items : list (string * json)).

(** The exceptions that cross the code under study. *)
Inductive exn : Type :=
| KeyError (key : json)
| TypeError
| JSONDecodeError
| AttributeError (name : string)
| ValueError.

(** A computation that returns a value or raises. *)
Definition result (A : Type) : Type := exn + A.

Definition raise {A} (e : exn) : result A := inl e.

#[export] Instance result_ret : MRet result := fun A x => inr x.
#[export] Instance result_bind : MBind result := fun A B f m =>
  match m with
  | inl e => inl e
  | inr x => f x
  end.

Definition raises {A} (m : result A) : Prop := exists e, m = inl e.

(** Item lookup in a dict held as its items. *)
Fixpoint dict_get {V} (items : list (string * V)) (k : string) : option V :=
  match items with
  | [] => None
  | (k', v) :: rest => if String.eqb k' k then Some v else dict_get rest k
  end.

(** [v[k]] for a string constant [k]: a dict is looked up, anything else
    does not take a string subscript. *)
Definition getitem (v : json) (k : string) : result json :=
  match v with
  | JObj items =>
      match dict_get items k with
      | Some x => mret x
      | None => raise (KeyError (JStr k))
      end
  | _ => raise TypeError
  end.

(** [for x in v]: the elements of a list, the keys of a dict, the
    characters of a string; nothing else is iterable. *)
Definition iter (v : json) : result (list json) :=
  match v with
  | JArr xs => mret xs
  | JObj items => mret (map (fun kv => JStr (fst kv)) items)
  | JStr s => mret (map (fun c => JStr (String c EmptyString)) (String.list_ascii_of_string s))
  | _ => raise TypeError
  end.

(** Dict keys up to Python's [==]/[hash]: [True] and [1] are one key, and
    so are [False] and [0]; lists and dicts are unhashable. *)
Inductive key : Type :=
| KNone
| KInt (n : Z)
| KStr (s : string).

#[export] Instance key_eq_dec : EqDecision key.
Proof. solve_decision. Defined.

Definition key_enc (k : key) : unit + Z + string :=
  match k with
  | KNone => inl (inl tt)
  | KInt n => inl (inr n)
  | KStr s => inr s
  end.

Definition key_dec (x : unit + Z + string) : key :=
  match x with
  | inl (inl _) => KNone
  | inl (inr n) => KInt n
  | inr s => KStr s
  end.

#[export] Instance key_countable : Countable key.
Proof. apply (inj_countable' key_enc key_dec). by intros []. Defined.

Definition hash (v : json) : result key :=
  match v with
  | JNull => mret KNone
  | JBool b => mret (KInt (if b then 1 else 0))
  | JInt n => mret (KInt n)
  | JStr s => mret (KStr s)
  | JArr _ | JObj _ => raise TypeError
  end.

(** A row of the table as [tabulate] builds it: a dict literal, kept as its
    items in the order the literal lists them. *)
Abbreviation row := (list (string * json)).

(** Lines 153-156: the dict comprehension.  Per agent the key expression is
    evaluated, then the value expression, then the item is stored (which
    hashes the key); a later agent with the same id replaces the earlier
    item. *)
Fixpoint agent2species_comprehension (agents : list json) (d : gmap key json)
  : result (gmap key json) :=
  match agents with
  | [] => mret d
  | agent :: rest =>
      k ← getitem agent "id";
      v ← getitem agent "species";
      h ← hash k;
      agent2species_comprehension rest (<[h := v]> d)
  end.

(** [agent2species[a]] *)
Definition agent2species_getitem (agent2species : gmap key json) (a : json)
  : result json :=
  h ← hash a;
  match agent2species !! h with
  | Some v => mret v
  | None => raise (KeyError a)
  end.

(** Lines 158-170: the dict literal of one row; its values are evaluated
    top to bottom. *)
Definition tabulate_row (file_id provenance start end_ : json)
    (agent2species : gmap key json) (event : json) : result row :=
  event_id ← getitem event "id";
  agent ← getitem event "agent";
  event_type ← getitem event "type";
  ev_start ← getitem event "start";
  ev_end ← getitem event "end";
  species ← agent2species_getitem agent2species agent;
  content ← getitem event "content";
  mret [ ("file_id", file_id);
         ("provenance", provenance);
         ("file_start", start);
         ("file_end", end_);
         ("event_id", event_id);
         ("agent", agent);
         ("event_type", event_type);
         ("start", ev_start);
         ("end", ev_end);
         ("species", species);
         ("content", content) ].

(** Lines 157-170: the loop appending one row per event to [rows]. *)
Fixpoint tabulate_loop (file_id provenance start end_ : json)
    (agent2species : gmap key json) (events : list json) (rows : list row)
  : result (list row) :=
  match events with
  | [] => mret rows
  | event :: rest =>
      r ← tabulate_row file_id provenance start end_ agent2species event;
      tabulate_loop file_id provenance start end_ agent2species rest (rows ++ [r])
  end.

(** Lines 147-171. *)
Definition tabulate (event_stream : json) : result (list row) :=
  let rows := [] in
  file_id ← getitem event_stream "id";
  provenance ← getitem event_stream "provenance";
  start ← getitem event_stream "start";
  end_ ← getitem event_stream "end";
  agents ← getitem event_stream "agents" ≫= iter;
  agent2species ← agent2species_comprehension agents ∅;
  events ← getitem event_stream "events" ≫= iter;
  tabulate_loop file_id provenance start end_ agent2species events rows.

End Py.

(** * Part 2: the table and the library operations on it *)

Module Pd.
Import Py.

(** One row of the table [df] after lines 20-22, with its index label and the
    eleven columns in the types the analysis relies on: the four columns it
    filters or groups on hold strings, [start] and [end] hold timestamps (in
    nanoseconds since the epoch, as pandas stores them).  A [str] is held as
    a [string] with one [ascii] per character.  Missing values ([NaN], [NaT])
    in these columns are not in the model. *)
Record Row : Type := mkRow {
  index : nat;
  file_id : string;
  provenance : json;
  file_start : json;
  file_end : json;
  event_id : json;
  agent : json;
  event_type : string;
  start : Z;
  end_ : Z;
  species : string;
  content : string
}.

Abbreviation DataFrame := (list Row).

(** A column with its index labels. *)
Abbreviation Series A := (list (nat * A)).

Definition column {A} (f : Row -> A) (df : DataFrame) : Series A :=
  map (fun r => (index r, f r)) df.

(** [s.shift(1, fill_value=None)]: every value moves one position down, the
    labels stay, the first position gets the missing value. *)
Definition shift {A} (s : Series A) : Series (option A) :=
  zip (map fst s) (None :: map (fun lv => Some (snd lv)) s).

(** An elementwise operation on two series that carry the same index. *)
Definition series_zip {A B C} (f : A -> B -> C) (s : Series A) (t : Series B)
  : Series C :=
  map (fun '((l, a), (_, b)) => (l, f a b)) (zip s t).

(** The value a series holds at a label. *)
Fixpoint series_get {A} (s : Series A) (label : nat) : option A :=
  match s with
  | [] => None
  | (l, v) :: rest => if Nat.eqb l label then Some v else series_get rest label
  end.

(** [s.iloc[1:]] *)
Definition iloc_from_1 {A} (s : list A) : list A := tail s.

(** [s.loc[mask]] for a boolean series [mask] whose index covers that of
    [s]: the entries whose label [mask] sends to [True]. *)
Definition loc_mask {A} (s : Series A) (mask : Series bool) : Series A :=
  List.filter (fun lv => match series_get mask (fst lv) with
                         | Some b => b
                         | None => false
                         end) s.

(** [str.contains(pat)] for a pattern without regular-expression operators:
    [pat] occurs in [s]. *)
Fixpoint str_contains (pat s : string) : bool :=
  String.prefix pat s ||
  match s with
  | EmptyString => false
  | String _ s' => str_contains pat s'
  end.

Definition str_len (s : string) : Z := Z.of_nat (String.length s).

Definition str_eqb (a b : string) : bool := String.eqb a b.

(** Order of the group keys. *)
Definition str_le (a b : string) : Prop := String.leb a b = true.

#[export] Instance str_le_dec : RelDecision str_le.
Proof. intros a b. unfold str_le. apply _. Defined.

(** [df.groupby(by)]: one group per distinct key, groups in ascending key
    order, the rows of a group in the order they have in [df]. *)
Definition groupby (by_ : Row -> string) (df : DataFrame)
  : list (string * DataFrame) :=
  map (fun k => (k, List.filter (fun r => str_eqb (by_ r) k) df))
      (merge_sort str_le (remove_dups (map by_ df))).

(** The order [sort_values("start")] sorts by, and one sort that achieves
    it. *)
Definition start_le (a b : Row) : Prop := (start a <= start b)%Z.

#[export] Instance start_le_dec : RelDecision start_le.
Proof. intros a b. unfold start_le. apply _. Defined.

Definition merge_sort_values : DataFrame -> DataFrame := merge_sort start_le.

(** [collections.Counter(xs)]: the counts of the elements, kept in the order
    of first occurrence. *)
Fixpoint counter_add {K} `{EqDecision K} (k : K) (c : list (K * nat))
  : list (K * nat) :=
  match c with
  | [] => [(k, 1%nat)]
  | (k', n) :: rest =>
      if decide (k = k') then (k', S n) :: rest
      else (k', n) :: counter_add k rest
  end.

Definition Counter {K} `{EqDecision K} (xs : list K) : list (K * nat) :=
  fold_left (fun c k => counter_add k c) xs [].

(** [c[k]] on a counter: the count of [k], and 0 for a key never counted. *)
Fixpoint counter_get {K} `{EqDecision K} (c : list (K * nat)) (k : K) : nat :=
  match c with
  | [] => 0%nat
  | (k', n) :: rest => if decide (k = k') then n else counter_get rest k
  end.

(** [Counter.most_common()]: the items sorted by count, largest first; the
    sort is stable, so items of equal count keep their order. *)
Fixpoint most_common_insert {K} (x : K * nat) (l : list (K * nat))
  : list (K * nat) :=
  match l with
  | [] => [x]
  | y :: l' =>
      if Nat.leb (snd y) (snd x) then x :: y :: l'
      else y :: most_common_insert x l'
  end.

Definition most_common {K} (c : list (K * nat)) : list (K * nat) :=
  fold_right most_common_insert [] c.

(** [Series.value_counts()]: the counts of the distinct values, largest
    first (values of equal count in the order of first occurrence here;
    pandas leaves their order to its sort). *)
Definition value_counts (xs : list string) : list (string * nat) :=
  most_common (Counter xs).

(** [sorted([prev, curr])] as a tuple. *)
Definition sorted_pair (prev curr : string) : string * string :=
  if String.ltb curr prev then (curr, prev) else (prev, curr).

(** [Timedelta.total_seconds()], as an exact fraction (pandas returns the
    nearest float). *)
Definition total_seconds (ns : Z) : Q := Qmake ns 1000000000.

(** [Timestamp.hour] of a timestamp without time zone. *)
Definition hour (ns : Z) : Z := (ns / 3600000000000) mod 24.

(** [numpy.histogram(a, bins)] with a number of bins: [bins] bins of equal
    width over the range from the least to the largest value of [a] (widened
    by one half on each side when they coincide, and from 0 to 1 when [a] is
    empty); every bin is closed on the left and open on the right, but the
    last one, which is closed.  numpy computes the edges in floating point;
    for whole hours of the day the bins it finds are those of the exact
    computation. *)
Definition histogram_range (a : list Z) : Q * Q :=
  match a with
  | [] => (0%Q, 1%Q)
  | x :: xs =>
      let lo := fold_right Z.min x xs in
      let hi := fold_right Z.max x xs in
      if Z.eqb lo hi then ((inject_Z lo - (1 # 2))%Q, (inject_Z hi + (1 # 2))%Q)
      else (inject_Z lo, inject_Z hi)
  end.

Definition bin_index (range : Q * Q) (bins : Z) (x : Z) : Z :=
  let '(lo, hi) := range in
  if Qeq_bool (inject_Z x) hi then bins - 1
  else Qfloor ((inject_Z x - lo) * inject_Z bins / (hi - lo))%Q.

Definition histogram (a : list Z) (bins : Z) : list nat :=
  map (fun i => length (List.filter
                          (fun x => Z.eqb (bin_index (histogram_range a) bins x) i) a))
      (seqZ 0 bins).

End Pd.

(** * Part 3: the functions of the script *)

Module Script.
Import Py Pd.

(** What the script does to the outside: it prints on standard output and
    it writes files.  A figure is kept as the data it draws, a file of
    n-grams as its lines, each a pair and its count. *)
Inductive printed : Type :=
| text (s : string) (arg : string)
| frame (df : DataFrame)
| series (s : list (string * nat)).

Inductive figure : Type :=
| barh (bars : list (string * nat))
| swarmplot (points : list (string * Q))
| polar_bar (radii : list nat).

Inductive effect : Type :=
| print (x : printed)
| to_csv (path : string) (df : DataFrame)
| savefig (path : string) (fig : figure)
| write (path : string) (lines : list (string * string * nat)).

(** A step of the script: the effects it had, in order, and its value or
    the exception that ended it. *)
Definition io (A : Type) : Type := list effect * result A.

#[export] Instance io_ret : MRet io := fun A x => ([], inr x).
#[export] Instance io_bind : MBind io := fun A B f m =>
  match m with
  | (out, inl e) => (out, inl e)
  | (out, inr x) => let '(out', r) := f x in (out ++ out', r)
  end.

Definition emit (o : effect) : io unit := ([o], inr tt).
Definition lift {A} (m : result A) : io A := ([], m).

(** The files written: the outputs of the program.  A printed line names
    no file. *)
Definition file_written (o : effect) : option string :=
  match o with
  | print _ => None
  | to_csv path _ | savefig path _ | write path _ => Some path
  end.

Definition files_written (out : list effect) : list string :=
  omap file_written out.

(** ** [button_count], lines 31-47 *)

Definition button_count_mask (r : Row) : bool :=
  str_eqb (species r) "canis familiaris" &&
  negb (str_contains "OTHER" (content r)) &&
  negb (str_contains " or " (content r)) &&
  negb (str_eqb (content r) "") &&
  negb (str_eqb (content r) "null") &&
  (str_len (content r) <? 10)%Z &&
  str_eqb (event_type r) "button_press".

Definition button_count (df : DataFrame) : io unit :=
  let button_hist := value_counts (map content (List.filter button_count_mask df)) in
  let button_hist := rev button_hist in
  emit (print (series button_hist));;
  emit (savefig "data/button_count" (barh button_hist)).

(** ** [gap_time], lines 50-74 *)

(** A row of the frame [_gap_time] returns: the row of the table and the
    two added columns; a missing [gap] is [NaN]. *)
Record GapRow : Type := mkGapRow {
  table_row : Row;
  transition : bool;
  gap : option Q
}.

Definition with_species (f : string -> string) (g : GapRow) : GapRow :=
  let r := table_row g in
  mkGapRow
    (mkRow (index r) (file_id r) (provenance r) (file_start r) (file_end r)
       (event_id r) (agent r) (event_type r) (start r) (end_ r)
       (f (species r)) (content r))
    (transition g) (gap g).

(** Lines 61-66. *)
Definition rename (species : string) : string :=
  if String.eqb species "homo sapeins" then "human -> dog"
  else if String.eqb species "canis familiaris" then "human -> dog"
  else species.

(** [shifted == current] for a shifted value that may be missing: a missing
    value equals nothing. *)
Definition eq_shifted (prev : option string) (cur : string) : bool :=
  match prev with
  | Some p => str_eqb p cur
  | None => false
  end.

(** [current - shifted] on timestamps: missing when the shifted one is. *)
Definition sub_shifted (cur : Z) (prev : option Z) : option Z :=
  match prev with
  | Some p => Some (cur - p)
  | None => None
  end.

Section GapTime.

(** [df.sort_values("start")].  pandas sorts with an unstable algorithm by
    default, so all that is known of the result is that it holds the same
    rows in ascending order of [start]. *)
Variable sort_values : DataFrame -> DataFrame.

(** Lines 51-56.  Line 53 adds a column over the index of [df], line 54
    likewise; line 55 selects from all rows but the first those where
    [transition] holds, and the assignment aligns the selected values with
    the rows by label, leaving the others missing. *)
Definition _gap_time (df : DataFrame) : list GapRow :=
  let df := sort_values df in
  let transition := series_zip eq_shifted (shift (column species df)) (column species df) in
  let gap := series_zip sub_shifted (column start df) (shift (column end_ df)) in
  let gap := map (fun lv => (fst lv, option_map total_seconds (snd lv)))
                 (loc_mask (iloc_from_1 gap) transition) in
  map (fun '(r, (_, t)) =>
         mkGapRow r t (from_option id None (series_get gap (index r))))
      (zip df transition).

(** The frame line 57 builds: the groups by [file_id], each passed through
    [_gap_time], one after the other. *)
Definition gaps_by_file (df : DataFrame) : list GapRow :=
  concat (map (fun g => _gap_time (snd g)) (groupby file_id df)).

(** The frame that is plotted, lines 57-67. *)
Definition gaps_frame (df : DataFrame) : list GapRow :=
  let gaps := gaps_by_file df in
  let total := map (with_species (fun _ => "total")) gaps in
  let gaps := gaps ++ total in
  map (with_species rename) gaps.

(** The points of the swarm plot: the rows that have a gap. *)
Definition swarm_points (gaps : list GapRow) : list (string * Q) :=
  omap (fun g => match gap g with
                 | Some y => Some (species (table_row g), y)
                 | None => None
                 end) gaps.

Definition gap_time (df : DataFrame) : io unit :=
  emit (savefig "data/gaps.png" (swarmplot (swarm_points (gaps_frame df)))).

End GapTime.

(** ** [clock], lines 77-109 *)

Definition N : Z := 23.

Definition clock_hours (df : DataFrame) : list Z :=
  map (fun r => hour (start r))
      (List.filter (fun r => str_eqb (species r) "canis familiaris") df).

Definition clock (df : DataFrame) : io unit :=
  let radii := histogram (clock_hours df) N in
  emit (savefig "data/press_by_hour.png" (polar_bar radii)).

(** ** [ngrams], lines 112-144 *)

Definition canine_mask (r : Row) : bool :=
  str_eqb (species r) "canis familiaris" &&
  negb (str_contains "OTHER" (content r)) &&
  negb (str_contains " or " (content r)) &&
  negb (str_eqb (content r) "") &&
  (str_len (content r) <? 10)%Z &&
  str_eqb (event_type r) "button_press".

Definition human_mask (r : Row) : bool :=
  str_eqb (species r) "homo sapiens" &&
  negb (str_contains "OTHER" (content r)) &&
  negb (str_contains " or " (content r)) &&
  negb (str_eqb (content r) "") &&
  negb (str_eqb (content r) "null") &&
  (str_len (content r) <? 10)%Z &&
  str_eqb (event_type r) "button_press".

(** The pairs of one group, lines 122-123 (and 139-140). *)
Definition group_pairs (gdf : DataFrame) : list (string * string) :=
  map (fun '(prev, curr) => sorted_pair prev curr)
      (zip (map content gdf) (iloc_from_1 (map content gdf))).

(** The list [ngrams] after the loop over the groups, lines 120-123 (and
    137-140). *)
Definition ngrams_list (tokens : DataFrame) : list (string * string) :=
  flat_map (fun g => group_pairs (snd g)) (groupby file_id tokens).

Definition ngrams (df : DataFrame) : io unit :=
  let tokens := List.filter canine_mask df in
  let count := Counter (ngrams_list tokens) in
  emit (write "data/canine_ngrams.csv" (most_common count));;
  let tokens := List.filter human_mask df in
  let count := Counter (ngrams_list tokens) in
  emit (write "data/human_ngrams.csv" (most_common count)).

(** ** [main], lines 13-28 *)

Section Main.

Variable sort_values : DataFrame -> DataFrame.

(** Lines 20-22: [pd.DataFrame(rows)] and the two [pd.to_datetime]
    conversions.  How pandas types the columns and parses the timestamps is
    not modelled; the step is a parameter, and it may raise. *)
Variable make_frame : list row -> result DataFrame.

(** Lines 15-19.  [files] holds, for each file the glob yields, what
    opening and [json.load] give: the loaded value or the exception. *)
Fixpoint load_rows (files : list (result json)) (rows : list row)
  : result (list row) :=
  match files with
  | [] => mret rows
  | loaded :: rest =>
      event_stream ← loaded;
      new_rows ← tabulate event_stream;
      load_rows rest (rows ++ new_rows)
  end.

Definition main (data_dir : string) (files : list (result json)) : io unit :=
  emit (print (text "data directory: " data_dir));;
  rows ← lift (load_rows files []);
  df ← lift (make_frame rows);
  emit (print (frame df));;
  emit (to_csv "table.csv" df);;
  button_count df;;
  gap_time sort_values df;;
  clock df;;
  ngrams df.

End Main.

End Script.

(** * Part 4: notions the statements on [tabulate] use *)

Module Props.
Import Py Pd Script.

(** The six top-level fields of an event stream. *)
Definition stream_fields (s file_id provenance start end_ : json)
    (agents events : list json) : Prop :=
  getitem s "id" = inr file_id /\
  getitem s "provenance" = inr provenance /\
  getitem s "start" = inr start /\
  getitem s "end" = inr end_ /\
  getitem s "agents" = inr (JArr agents) /\
  getitem s "events" = inr (JArr events).

(** The six fields of an event. *)
Definition event_fields (e event_id agent event_type start end_ content : json)
  : Prop :=
  getitem e "id" = inr event_id /\
  getitem e "agent" = inr agent /\
  getitem e "type" = inr event_type /\
  getitem e "start" = inr start /\
  getitem e "end" = inr end_ /\
  getitem e "content" = inr content.

(** An entry of the agents list with its id, as a dict key, and its
    species. *)
Definition agent_entry (ag : json) (k : key) (sp : json) : Prop :=
  (getitem ag "id" ≫= hash) = inr k /\ getitem ag "species" = inr sp.

(** The agent has the id [k]. *)
Definition agent_has_id (k : key) (ag : json) : bool :=
  match getitem ag "id" ≫= hash with
  | inr k' => bool_decide (k' = k)
  | inl _ => false
  end.

(** The last entry of the agents list with the id [k]. *)
Definition last_agent (agents : list json) (k : key) : option json :=
  last (List.filter (agent_has_id k) agents).

(** The event's agent is the id of an entry of the agents list. *)
Definition agent_listed (agents : list json) (a : json) : Prop :=
  exists k ag, hash a = inr k /\ In ag agents /\ agent_has_id k ag = true.

(** The row [tabulate] is to build for an event. *)
Definition row_of_event (file_id provenance start end_ : json) (e : json)
    (r : row) : Prop :=
  exists event_id agent event_type ev_start ev_end content species,
    event_fields e event_id agent event_type ev_start ev_end content /\
    r = [ ("file_id", file_id); ("provenance", provenance);
          ("file_start", start); ("file_end", end_);
          ("event_id", event_id); ("agent", agent);
          ("event_type", event_type); ("start", ev_start); ("end", ev_end);
          ("species", species); ("content", content) ].

(** The names of the columns, in order. *)
Definition columns : list string :=
  [ "file_id"; "provenance"; "file_start"; "file_end"; "event_id"; "agent";
    "event_type"; "start"; "end"; "species"; "content" ].

End Props.

(** * Part 5: notions the statements on the table use *)

Module TableProps.
Import Py Pd Script.

(** The row before position [i] of a frame. *)
Definition prev_row (df : DataFrame) (i : nat) : option Row :=
  match i with
  | O => None
  | S j => df !! j
  end.

(** The row of the gap-time frame for a row [r] that comes after [prev] in
    its sorted group: [transition] tells whether the species is that of the
    row before, and the gap, in seconds from the end of the row before to
    the start of [r], is there only under [transition]. *)
Definition gap_row (prev : option Row) (r : Row) : GapRow :=
  let t := eq_shifted (species <$> prev) (species r) in
  mkGapRow r t
    (if t then option_map total_seconds (sub_shifted (start r) (end_ <$> prev))
     else None).

(** The rows of a frame with the file id [k]. *)
Definition rows_of_file (k : string) (df : DataFrame) : DataFrame :=
  List.filter (fun r => str_eqb (file_id r) k) df.


(** The number of occurrences of [k] in a list. *)
Definition occurrences {K} `{EqDecision K} (k : K) (xs : list K) : nat :=
  length (List.filter (fun x => bool_decide (x = k)) xs).

(** The order of the lines of an n-gram file: counts do not increase. *)
Definition count_ge {K} (x y : K * nat) : Prop := (snd y <= snd x)%nat.

(** The n-gram files a run writes, with their lines. *)
Definition ngram_files (out : list effect)
  : list (string * list (string * string * nat)) :=
  omap (fun o => match o with
                 | write path lines => Some (path, lines)
                 | _ => None
                 end) out.

End TableProps.

(** * Part 6: malformed input and runs of [main] *)

Module RunProps.
Import Py Pd Script.

Definition stream_field_names : list string :=
  ["id"; "provenance"; "start"; "end"; "agents"; "events"].
Definition agent_field_names : list string := ["id"; "species"].
Definition event_field_names : list string :=
  ["id"; "agent"; "type"; "start"; "end"; "content"].

(** Two values that are one dict key (Python's [==] on hashable values). *)
Definition same_key (x y : json) : Prop :=
  exists k, hash x = inr k /\ hash y = inr k.

(** A loaded file that lacks a required field, at the top, in an agent or
    in an event, or that has an event whose agent identifier is the id of
    no entry of the agents list. *)
Inductive malformed (s : json) : Prop :=
| missing_stream_field (items : list (string * json)) (f : string) :
    s = JObj items -> In f stream_field_names -> dict_get items f = None ->
    malformed s
| missing_agent_field (agents : list json) (items : list (string * json))
    (f : string) :
    getitem s "agents" = inr (JArr agents) -> In (JObj items) agents ->
    In f agent_field_names -> dict_get items f = None ->
    malformed s
| missing_event_field (events : list json) (items : list (string * json))
    (f : string) :
    getitem s "events" = inr (JArr events) -> In (JObj items) events ->
    In f event_field_names -> dict_get items f = None ->
    malformed s
| unlisted_agent (agents events : list json) (e a : json) :
    getitem s "agents" = inr (JArr agents) ->
    getitem s "events" = inr (JArr events) ->
    In e events -> getitem e "agent" = inr a ->
    (forall ag id, In ag agents -> getitem ag "id" = inr id -> ~ same_key id a) ->
    malformed s.

(** A file of the data directory that loads and tabulates. *)
Definition loads (f : result json) : Prop :=
  exists s rows, f = inr s /\ tabulate s = inr rows.

(** A file on which the loader or [tabulate] raises [e]. *)
Definition fails_with (f : result json) (e : exn) : Prop :=
  f = inl e \/ exists s, f = inr s /\ tabulate s = inl e.

(** The effects of [main] after its first line once the table is built,
    lines 23-28, in order. *)
Definition analysis_effects (sort_values : DataFrame -> DataFrame)
    (df : DataFrame) : list effect :=
  [ print (frame df); to_csv "table.csv" df ] ++
  fst (button_count df) ++ fst (gap_time sort_values df) ++
  fst (clock df) ++ fst (ngrams df).

End RunProps.

(** * Part 7: sample data *)

Module Examples.
Import Py Pd Script.

Definition agent_ (id species : string) : json :=
  JObj [("id", JStr id); ("species", JStr species)].

Definition event_ (id agent : string) (start end_ : Z) (content : string)
  : json :=
  JObj [("id", JStr id); ("agent", JStr agent); ("type", JStr "button_press");
        ("start", JInt start); ("end", JInt end_); ("content", JStr content)].

Definition stream_ (id : string) (agents events : list json) : json :=
  JObj [("id", JStr id); ("provenance", JStr "home"); ("start", JInt 0);
        ("end", JInt 100); ("agents", JArr agents); ("events", JArr events)].

(** A well-formed stream: a dog and a human, three presses. *)
Definition session : json :=
  stream_ "s1"
    [agent_ "rex" "canis familiaris"; agent_ "ann" "homo sapiens"]
    [event_ "e1" "ann" 10 12 "walk"; event_ "e2" "rex" 15 16 "walk";
     event_ "e3" "rex" 20 21 "play"].

(** A stream whose only event names an agent that is not listed. *)
Definition stray_event : json := event_ "e1" "rex" 10 12 "walk".
Definition stream_with_stray_agent : json :=
  stream_ "s2" [agent_ "ann" "homo sapiens"] [stray_event].

(** A stream that lists one agent id twice, with two species. *)
Definition twice_listed : list json :=
  [agent_ "rex" "canis familiaris"; agent_ "rex" "homo sapiens"].
Definition stream_with_twice_listed_agent : json :=
  stream_ "s3" twice_listed [event_ "e1" "rex" 10 12 "walk"].

(** A table of five presses from two files, with timestamps on whole
    seconds. *)
Definition sec (n : Z) : Z := n * 1000000000.

Definition press (index : nat) (file_id : string) (start end_ : Z)
    (species content : string) : Row :=
  mkRow index file_id (JStr "home") (JInt 0) (JInt 100) (JStr "e") (JStr "a")
        "button_press" (sec start) (sec end_) species content.

Definition table : DataFrame :=
  [ press 0 "s1" 10 12 "homo sapiens" "walk";
    press 1 "s1" 15 16 "canis familiaris" "walk";
    press 2 "s1" 20 21 "canis familiaris" "play";
    press 3 "s2" 5 6 "canis familiaris" "play";
    press 4 "s2" 2 3 "canis familiaris" "food" ].

(** A builder of the table for rows whose string columns hold strings and
    whose timestamps are integers, which [pd.to_datetime] reads as
    nanoseconds since the epoch.  On an empty list of rows the frame has no
    column [start], and line 21 raises. *)
Definition cell (r : row) (c : string) : result json :=
  match dict_get r c with
  | Some v => inr v
  | None => inl (KeyError (JStr c))
  end.

Definition cell_str (r : row) (c : string) : result string :=
  match dict_get r c with
  | Some (JStr s) => inr s
  | _ => inl TypeError
  end.

Definition cell_int (r : row) (c : string) : result Z :=
  match dict_get r c with
  | Some (JInt n) => inr n
  | _ => inl ValueError
  end.

Definition frame_row (ir : nat * row) : result Row :=
  let '(i, r) := ir in
  c_file_id ← cell_str r "file_id";
  c_provenance ← cell r "provenance";
  c_file_start ← cell r "file_start";
  c_file_end ← cell r "file_end";
  c_event_id ← cell r "event_id";
  c_agent ← cell r "agent";
  c_event_type ← cell_str r "event_type";
  c_start ← cell_int r "start";
  c_end ← cell_int r "end";
  c_species ← cell_str r "species";
  c_content ← cell_str r "content";
  mret (mkRow i c_file_id c_provenance c_file_start c_file_end c_event_id
              c_agent c_event_type c_start c_end c_species c_content).

Definition int_frame (rows : list row) : result DataFrame :=
  match rows with
  | [] => inl (AttributeError "start")
  | _ => mapM frame_row (imap pair rows)
  end.

End Examples.

(** * Part 8: notions the further statements use *)

Module MoreProps.
Import Py Pd Script.

(** The first of [fields] that a dict lacks. *)
Fixpoint first_missing {V} (items : list (string * V)) (fields : list string)
  : option string :=
  match fields with
  | [] => None
  | f :: rest =>
      match dict_get items f with
      | None => Some f
      | Some _ => first_missing items rest
      end
  end.

(** The number of events of a loaded stream. *)
Definition events_count (s : json) : nat :=
  match getitem s "events" ≫= iter with
  | inr events => length events
  | inl _ => 0%nat
  end.

(** The bars of the chart [button_count] draws, lines 32-42. *)
Definition button_bars (df : DataFrame) : list (string * nat) :=
  rev (value_counts (map content (List.filter button_count_mask df))).

(** The order of the bars: counts do not decrease. *)
Definition count_le {K} (x y : K * nat) : Prop := (snd x <= snd y)%nat.

(** [pat] occurs in [s]. *)
Definition occurs_in (pat s : string) : Prop :=
  exists pre post, s = (pre ++ pat ++ post)%string.

(** A row moved in time by a whole number of days. *)
Definition nanoseconds_per_day : Z := 24 * 3600000000000.

Definition move_by_days (days : Row -> Z) (r : Row) : Row :=
  mkRow (index r) (file_id r) (provenance r) (file_start r) (file_end r)
        (event_id r) (agent r) (event_type r)
        (start r + days r * nanoseconds_per_day)
        (end_ r + days r * nanoseconds_per_day)
        (species r) (content r).

(** Another sort by start: it differs from [merge_sort_values] in the order
    it gives to rows that start together. *)
Definition merge_sort_values_from_last (df : DataFrame) : DataFrame :=
  merge_sort_values (rev df).

End MoreProps.

(** * Part 9: facts about [tabulate] *)

Import Py Pd Script Props TableProps RunProps.

Section ResultMonad.
Context {A B : Type}.

Lemma bind_inr (m : result A) (f : A -> result B) (y : B) :
  m ≫= f = inr y <-> exists x, m = inr x /\ f x = inr y.
Proof.
  destruct m as [e|x]; simpl; split.
  - discriminate.
  - intros (x & Hx & _). discriminate.
  - intros H. exists x. auto.
  - intros (x' & Hx & H). congruence.
Qed.

Lemma bind_raises_l (m : result A) (f : A -> result B) :
  raises m -> raises (m ≫= f).
Proof. intros [e ->]. exists e. reflexivity. Qed.

Lemma bind_raises_r (m : result A) (f : A -> result B) (x : A) :
  m = inr x -> raises (f x) -> raises (m ≫= f).
Proof. intros -> H. exact H. Qed.

Lemma raises_or_returns (m : result A) : raises m \/ exists x, m = inr x.
Proof. destruct m as [e|x]; [left; exists e | right; exists x]; reflexivity. Qed.

Lemma raises_not_inr (m : result A) (x : A) : raises m -> m <> inr x.
Proof. intros [e ->]. discriminate. Qed.

End ResultMonad.

(** Splits a successful chain of binds into its steps. *)
Ltac inv_bind H :=
  repeat match type of H with
  | _ ≫= _ = inr _ =>
      let x := fresh "x" in
      let Hx := fresh "Hx" in
      apply bind_inr in H; destruct H as (x & Hx & H)
  end.

Lemma last_agent_cons (k : key) (a : json) (agents : list json) :
  last_agent (a :: agents) k =
  match last_agent agents k with
  | Some ag => Some ag
  | None => if agent_has_id k a then Some a else None
  end.
Proof.
  unfold last_agent. simpl.
  destruct (agent_has_id k a); [| by destruct (last _)].
  by rewrite last_cons.
Qed.

Lemma last_agent_Some (agents : list json) (k : key) (ag : json) :
  last_agent agents k = Some ag -> In ag agents /\ agent_has_id k ag = true.
Proof.
  unfold last_agent. intros H.
  apply last_Some in H as [pre H].
  apply filter_In. rewrite H. apply in_or_app. right. by left.
Qed.

Lemma last_agent_None (agents : list json) (k : key) :
  last_agent agents k = None <->
  forall ag, In ag agents -> agent_has_id k ag = false.
Proof.
  unfold last_agent. rewrite last_None. split.
  - intros H ag Hin. destruct (agent_has_id k ag) eqn:E; [|done].
    assert (In ag (List.filter (agent_has_id k) agents)) as Hf
      by (apply filter_In; auto).
    rewrite H in Hf. destruct Hf.
  - intros H. destruct (List.filter _ _) as [|ag l] eqn:E; [done|].
    assert (In ag (List.filter (agent_has_id k) agents)) as Hf
      by (rewrite E; by left).
    apply filter_In in Hf as [Hin Hid]. rewrite (H _ Hin) in Hid. discriminate.
Qed.

(** The dict the comprehension builds maps an id to the species of the
    last agent that has it. *)
Lemma comprehension_lookup (agents : list json) :
  forall (d d' : gmap key json),
    agent2species_comprehension agents d = inr d' ->
    forall k, d' !! k =
      match last_agent agents k with
      | Some ag => match getitem ag "species" with
                   | inr sp => Some sp
                   | inl _ => None
                   end
      | None => d !! k
      end.
Proof.
  induction agents as [|a agents IH]; intros d d' H k.
  - simpl in H. injection H as <-. reflexivity.
  - simpl in H. inv_bind H.
    rewrite (IH _ _ H k), last_agent_cons.
    destruct (last_agent agents k); [done|].
    unfold agent_has_id. rewrite Hx. simpl. rewrite Hx1.
    case_bool_decide as Hk.
    + subst. rewrite Hx0. apply lookup_insert_eq.
    + by apply lookup_insert_ne.
Qed.

Lemma comprehension_returns (agents : list json) :
  Forall (fun ag => exists k sp, agent_entry ag k sp) agents ->
  forall d, exists d', agent2species_comprehension agents d = inr d'.
Proof.
  induction 1 as [|a agents (k & sp & Hk & Hsp) _ IH]; intros d.
  - by exists d.
  - simpl. apply bind_inr in Hk as (i & Hi & Hh).
    rewrite Hi, Hsp. simpl. rewrite Hh. simpl. apply IH.
Qed.

Lemma comprehension_raises (agents : list json) :
  Exists (fun ag => raises (getitem ag "id") \/ raises (getitem ag "species"))
         agents ->
  forall d, raises (agent2species_comprehension agents d).
Proof.
  induction 1 as [a agents [H|H]|a agents _ IH]; intros d; simpl.
  - by apply bind_raises_l.
  - destruct (getitem a "id") as [e|i] eqn:Hi; [by exists e|].
    simpl. by apply bind_raises_l.
  - destruct (getitem a "id") as [e|i]; [by exists e|]. simpl.
    destruct (getitem a "species") as [e|sp]; [by exists e|]. simpl.
    destruct (hash i) as [e|h]; [by exists e|]. simpl. apply IH.
Qed.

(** The loop returns the rows it was given followed by one row per event,
    in the order of the events. *)
Lemma tabulate_loop_inr (file_id provenance start end_ : json)
    (d : gmap key json) (events : list json) :
  forall rows out,
    tabulate_loop file_id provenance start end_ d events rows = inr out <->
    exists new, out = rows ++ new /\
      Forall2 (fun e r => tabulate_row file_id provenance start end_ d e = inr r)
              events new.
Proof.
  induction events as [|e events IH]; intros rows out; simpl.
  - split.
    + intros [= <-]. exists []. split; [by rewrite app_nil_r | constructor].
    + intros (new & -> & H). inversion H. by rewrite app_nil_r.
  - rewrite bind_inr. split.
    + intros (r & Hr & H). apply IH in H as (new & -> & H).
      exists (r :: new). split; [by rewrite <- app_assoc | by constructor].
    + intros (new & -> & H). inversion H as [|? r ? new' Hr H']; subst.
      exists r. split; [done|]. apply IH. exists new'.
      split; [by rewrite <- app_assoc | done].
Qed.

Lemma tabulate_loop_raises (file_id provenance start end_ : json)
    (d : gmap key json) (events : list json) :
  Exists (fun e => raises (tabulate_row file_id provenance start end_ d e))
         events ->
  forall rows, raises (tabulate_loop file_id provenance start end_ d events rows).
Proof.
  induction 1 as [e events H|e events _ IH]; intros rows; simpl.
  - by apply bind_raises_l.
  - destruct (tabulate_row _ _ _ _ _ e) as [x|r]; [by exists x|]. apply IH.
Qed.

Lemma dict_get_Some_in {V} (items : list (string * V)) (k : string) (v : V) :
  dict_get items k = Some v -> In (k, v) items.
Proof.
  induction items as [|[k' v'] items IH]; simpl; [done|].
  destruct (String.eqb k' k) eqn:E.
  - apply String.eqb_eq in E as ->. intros [= ->]. by left.
  - intros H. right. auto.
Qed.

Lemma tabulate_row_inr (file_id provenance start end_ : json)
    (d : gmap key json) (e : json) (r : row) :
  tabulate_row file_id provenance start end_ d e = inr r <->
  exists event_id agent event_type ev_start ev_end content k species,
    event_fields e event_id agent event_type ev_start ev_end content /\
    hash agent = inr k /\ d !! k = Some species /\
    r = [ ("file_id", file_id); ("provenance", provenance);
          ("file_start", start); ("file_end", end_);
          ("event_id", event_id); ("agent", agent);
          ("event_type", event_type); ("start", ev_start); ("end", ev_end);
          ("species", species); ("content", content) ].
Proof.
  unfold tabulate_row, event_fields. split.
  - intros H. inv_bind H. injection H as <-.
    unfold agent2species_getitem in Hx4.
    apply bind_inr in Hx4 as (k & Hk & Hd).
    destruct (d !! k) as [sp|] eqn:Hsp; [|discriminate].
    injection Hd as <-.
    exists x, x0, x1, x2, x3, x5, k, sp. tauto.
  - unfold agent2species_getitem. intros (i & a & t & st & en & c & k & sp & (Hi & Ha & Ht & Hs & He & Hc)
            & Hk & Hd & ->).
    rewrite Hi, Ha, Ht, Hs, He. simpl. rewrite Hk. simpl. rewrite Hd. simpl.
    rewrite Hc. reflexivity.
Qed.

Lemma tabulate_row_raises_unlisted (file_id provenance start end_ : json)
    (d : gmap key json) (e a : json) :
  getitem e "agent" = inr a ->
  (forall k, hash a = inr k -> d !! k = None) ->
  raises (tabulate_row file_id provenance start end_ d e).
Proof.
  intros Ha Hd.
  destruct (raises_or_returns (tabulate_row file_id provenance start end_ d e))
    as [H|[r H]]; [done|].
  apply tabulate_row_inr in H
    as (i & a' & t & st & en & c & k & sp & (_ & Ha' & _) & Hk & Hsp & _).
  rewrite Ha in Ha'. injection Ha' as <-. rewrite (Hd _ Hk) in Hsp. discriminate.
Qed.

Lemma tabulate_row_raises_field (file_id provenance start end_ : json)
    (d : gmap key json) (e : json) (f : string) :
  In f ["id"; "agent"; "type"; "start"; "end"; "content"] ->
  raises (getitem e f) ->
  raises (tabulate_row file_id provenance start end_ d e).
Proof.
  intros Hf Hr.
  destruct (raises_or_returns (tabulate_row file_id provenance start end_ d e))
    as [H|[r H]]; [done|].
  apply tabulate_row_inr in H
    as (i & a' & t & st & en & c & k & sp & (? & ? & ? & ? & ? & ?) & _).
  destruct Hr as [x Hr]. simpl in Hf.
  repeat (destruct Hf as [<-|Hf]; [congruence|]). destruct Hf.
Qed.

Lemma Forall_exists_Forall2 {X Y} (P : X -> Y -> Prop) (l : list X) :
  Forall (fun x => exists y, P x y) l -> exists l', Forall2 P l l'.
Proof.
  induction 1 as [|x l [y Hy] _ [l' IH]].
  - exists []. constructor.
  - exists (y :: l'). by constructor.
Qed.

(** What a successful call of [tabulate] went through. *)
Lemma tabulate_inr (s : json) (rows : list row) :
  tabulate s = inr rows <->
  exists file_id provenance start end_ agents d events,
    getitem s "id" = inr file_id /\
    getitem s "provenance" = inr provenance /\
    getitem s "start" = inr start /\
    getitem s "end" = inr end_ /\
    getitem s "agents" ≫= iter = inr agents /\
    agent2species_comprehension agents ∅ = inr d /\
    getitem s "events" ≫= iter = inr events /\
    Forall2 (fun e r => tabulate_row file_id provenance start end_ d e = inr r)
            events rows.
Proof.
  unfold tabulate. split.
  - intros H. inv_bind H.
    apply tabulate_loop_inr in H as (new & -> & H).
    exists x, x0, x1, x2, x3, x4, x5. tauto.
  - intros (f & p & st & en & ags & d & evs & Hf & Hp & Hst & Hen & Hags & Hd
            & Hevs & H).
    rewrite Hf, Hp, Hst, Hen. simpl. rewrite Hags. simpl. rewrite Hd. simpl.
    rewrite Hevs. simpl. apply tabulate_loop_inr. by exists rows.
Qed.

(** The three presses of the sample session give three rows; the species
    of each is that of its agent. *)
Example tabulate_session :
  match tabulate Examples.session with
  | inr rows =>
      map (fun r => (dict_get r "event_id", dict_get r "species")) rows =
      [ (Some (JStr "e1"), Some (JStr "homo sapiens"));
        (Some (JStr "e2"), Some (JStr "canis familiaris"));
        (Some (JStr "e3"), Some (JStr "canis familiaris")) ]
  | inl _ => False
  end.
Proof. reflexivity. Qed.

(** A stream that is no dict, and one without events. *)
Example tabulate_not_a_dict : tabulate (JArr []) = inl TypeError.
Proof. reflexivity. Qed.

Example tabulate_no_events :
  tabulate (JObj [("id", JStr "s"); ("provenance", JNull); ("start", JNull);
                  ("end", JNull); ("agents", JArr [])])
  = inl (KeyError (JStr "events")).
Proof. reflexivity. Qed.

(** [True] and [1] are one dict key. *)
Example tabulate_bool_id :
  match tabulate (JObj [("id", JStr "s"); ("provenance", JNull);
                        ("start", JNull); ("end", JNull);
                        ("agents", JArr [JObj [("id", JBool true);
                                                ("species", JStr "dog")]]);
                        ("events", JArr [JObj [("id", JInt 7); ("agent", JInt 1);
                                                ("type", JNull); ("start", JNull);
                                                ("end", JNull);
                                                ("content", JNull)]])]) with
  | inr [r] => dict_get r "species" = Some (JStr "dog")
  | _ => False
  end.
Proof. reflexivity. Qed.

(** ** C1 *)

(** C1, as stated, fails: a stream that has the six fields, but whose event
    names an agent the agents list does not hold, makes [tabulate] raise
    [KeyError] instead of returning a row for that event. *)
Lemma tabulate_stray_agent_raises :
  stream_fields Examples.stream_with_stray_agent
    (JStr "s2") (JStr "home") (JInt 0) (JInt 100)
    [Examples.agent_ "ann" "homo sapiens"] [Examples.stray_event] /\
  tabulate Examples.stream_with_stray_agent = inl (KeyError (JStr "rex")) /\
  ~ (exists rows, tabulate Examples.stream_with_stray_agent = inr rows /\
                  length rows = 1%nat).
Proof.
  split; [by repeat split|]. split; [reflexivity|].
  intros (rows & H & _). discriminate H.
Qed.

(** C1 (amended): for every event stream with the six fields whose agents
    are entries with an id and a species and whose events have their six
    fields and name a listed agent, [tabulate] returns one row per element
    of the events list, in the same order; each row has exactly the eleven
    columns, in order, with [file_id], [provenance], [file_start] and
    [file_end] copied from the stream's [id], [provenance], [start] and
    [end], and the event's own fields in the others. *)
Theorem tabulate_one_row_per_event
    (s file_id provenance start end_ : json) (agents events : list json) :
  stream_fields s file_id provenance start end_ agents events ->
  Forall (fun ag => exists k sp, agent_entry ag k sp) agents ->
  Forall (fun e => exists i a t st en c,
            event_fields e i a t st en c /\ agent_listed agents a) events ->
  exists rows,
    tabulate s = inr rows /\
    length rows = length events /\
    Forall2 (row_of_event file_id provenance start end_) events rows /\
    Forall (fun r => map fst r = columns) rows.
Proof.
  intros (Hf & Hp & Hst & Hen & Hags & Hevs) Hagents Hevents.
  destruct (comprehension_returns agents Hagents ∅) as [d Hd].
  assert (Forall (fun e => exists r,
            tabulate_row file_id provenance start end_ d e = inr r /\
            row_of_event file_id provenance start end_ e r /\
            map fst r = columns) events) as Hrows.
  { eapply Forall_impl; [exact Hevents|]. simpl.
    intros e (i & a & t & st & en & c & He & k & ag & Hk & Hin & Hid).
    destruct (last_agent agents k) as [ag'|] eqn:Hlast.
    2:{ rewrite last_agent_None in Hlast. rewrite (Hlast _ Hin) in Hid.
        discriminate. }
    apply last_agent_Some in Hlast as Hag'. destruct Hag' as [Hin' _].
    rewrite Forall_forall in Hagents.
    destruct (Hagents _ (proj2 (list_elem_of_In _ _) Hin')) as (k' & sp & _ & Hsp).
    pose proof (comprehension_lookup agents _ _ Hd k) as Hlook.
    rewrite Hlast, Hsp in Hlook.
    eexists. split; [|split].
    - apply tabulate_row_inr. exists i, a, t, st, en, c, k, sp. eauto.
    - exists i, a, t, st, en, c, sp. eauto.
    - reflexivity. }
  apply Forall_exists_Forall2 in Hrows as [rows Hrows].
  exists rows. split; [|split; [|split]].
  - apply tabulate_inr.
    exists file_id, provenance, start, end_, agents, d, events.
    rewrite Hags, Hevs. repeat split; try done.
    eapply Forall2_impl; [exact Hrows|]. simpl. tauto.
  - symmetry. eapply Forall2_length, Hrows.
  - eapply Forall2_impl; [exact Hrows|]. simpl. tauto.
  - clear -Hrows. induction Hrows as [|e r events rows H _ IH]; constructor.
    + tauto.
    + exact IH.
Qed.

Lemma tabulate_one_row_per_event_witness :
  exists rows,
    tabulate Examples.session = inr rows /\
    length rows = 3%nat /\
    Forall2 (row_of_event (JStr "s1") (JStr "home") (JInt 0) (JInt 100))
      [Examples.event_ "e1" "ann" 10 12 "walk";
       Examples.event_ "e2" "rex" 15 16 "walk";
       Examples.event_ "e3" "rex" 20 21 "play"] rows /\
    Forall (fun r => map fst r = columns) rows.
Proof.
  apply (tabulate_one_row_per_event Examples.session (JStr "s1") (JStr "home")
           (JInt 0) (JInt 100)
           [Examples.agent_ "rex" "canis familiaris";
            Examples.agent_ "ann" "homo sapiens"]
           [Examples.event_ "e1" "ann" 10 12 "walk";
            Examples.event_ "e2" "rex" 15 16 "walk";
            Examples.event_ "e3" "rex" 20 21 "play"]).
  - repeat split.
  - repeat constructor.
    + exists (KStr "rex"), (JStr "canis familiaris"). by split.
    + exists (KStr "ann"), (JStr "homo sapiens"). by split.
  - repeat constructor.
    + exists (JStr "e1"), (JStr "ann"), (JStr "button_press"), (JInt 10),
        (JInt 12), (JStr "walk"). split; [by repeat split|].
      exists (KStr "ann"), (Examples.agent_ "ann" "homo sapiens").
      simpl. auto.
    + exists (JStr "e2"), (JStr "rex"), (JStr "button_press"), (JInt 15),
        (JInt 16), (JStr "walk"). split; [by repeat split|].
      exists (KStr "rex"), (Examples.agent_ "rex" "canis familiaris").
      simpl. auto.
    + exists (JStr "e3"), (JStr "rex"), (JStr "button_press"), (JInt 20),
        (JInt 21), (JStr "play"). split; [by repeat split|].
      exists (KStr "rex"), (Examples.agent_ "rex" "canis familiaris").
      simpl. auto.
Defined.

(** ** C2 *)




(** * Part 10: facts about the series operations and [_gap_time] *)


Section SeriesFacts.
Context {A : Type}.

Lemma series_get_fmap {B} (f : A -> B) (s : Series A) (l : nat) :
  series_get (map (fun lv => (fst lv, f (snd lv))) s) l = f <$> series_get s l.
Proof.
  induction s as [|[l' v] s IH]; simpl; [done|].
  by destruct (Nat.eqb l' l).
Qed.

Lemma series_get_lookup (s : Series A) (i l : nat) (v : A) :
  NoDup (map fst s) -> s !! i = Some (l, v) -> series_get s l = Some v.
Proof.
  revert i. induction s as [|[l' v'] s IH]; intros i Hnd Hi; [done|].
  simpl in Hnd. apply NoDup_cons in Hnd as [Hl' Hnd]. simpl.
  destruct i as [|i]; simpl in Hi.
  - injection Hi as -> ->. by rewrite Nat.eqb_refl.
  - destruct (Nat.eqb l' l) eqn:E; [|by eapply IH].
    apply Nat.eqb_eq in E as ->. exfalso. apply Hl'.
    apply list_elem_of_fmap. exists (l, v). split; [done|].
    by eapply list_elem_of_lookup_2.
Qed.

Lemma series_get_loc_mask (s : Series A) (mask : Series bool) (l : nat) :
  series_get (loc_mask s mask) l =
  match series_get mask l with
  | Some true => series_get s l
  | _ => None
  end.
Proof.
  induction s as [|[l' v] s IH]; simpl.
  - by destruct (series_get mask l) as [[]|].
  - destruct (Nat.eqb l' l) eqn:E.
    + apply Nat.eqb_eq in E as ->.
      destruct (series_get mask l) as [[]|] eqn:Hm; simpl.
      * by rewrite Nat.eqb_refl.
      * exact IH.
      * exact IH.
    + destruct (series_get mask l') as [[]|]; simpl; rewrite ?E; apply IH.
Qed.

Lemma shift_lookup (s : Series A) (i l : nat) (v : A) :
  s !! i = Some (l, v) ->
  shift s !! i = Some (l, snd <$> match i with O => None | S j => s !! j end).
Proof.
  intros Hi. unfold shift. rewrite lookup_zip_with, list_lookup_fmap, Hi.
  simpl. destruct i as [|j]; simpl; [done|].
  rewrite list_lookup_fmap.
  destruct (s !! j) as [[l' v']|] eqn:Hj; [done|].
  apply lookup_ge_None in Hj. apply lookup_lt_Some in Hi. lia.
Qed.

Lemma shift_length (s : Series A) : length (shift s) = length s.
Proof.
  unfold shift. rewrite length_zip_with. simpl. rewrite !length_map. lia.
Qed.

End SeriesFacts.

Lemma column_lookup {A} (f : Row -> A) (df : DataFrame) (i : nat) :
  column f df !! i = (fun r => (index r, f r)) <$> df !! i.
Proof. unfold column. apply list_lookup_fmap. Qed.

Lemma column_labels {A} (f : Row -> A) (df : DataFrame) :
  map fst (column f df) = map index df.
Proof. unfold column. rewrite map_map. reflexivity. Qed.

Lemma series_zip_lookup {A B C} (f : A -> B -> C) (s : Series A) (t : Series B)
    (i l l' : nat) (a : A) (b : B) :
  s !! i = Some (l, a) -> t !! i = Some (l', b) ->
  series_zip f s t !! i = Some (l, f a b).
Proof.
  intros Hs Ht. unfold series_zip.
  rewrite list_lookup_fmap, lookup_zip_with, Hs, Ht. reflexivity.
Qed.

Lemma series_zip_labels {A B C} (f : A -> B -> C) (s : Series A) (t : Series B) :
  length s = length t -> map fst (series_zip f s t) = map fst s.
Proof.
  revert t. induction s as [|[l a] s IH]; intros [|[l' b] t] Hlen;
    simpl in *; try done.
  f_equal. apply IH. lia.
Qed.

Section GapTimeFacts.
Variable sort_values : DataFrame -> DataFrame.

(** The column [transition] of line 53, position by position. *)
Lemma transition_lookup (df : DataFrame) (i : nat) (r : Row) :
  df !! i = Some r ->
  series_zip eq_shifted (shift (column species df)) (column species df) !! i =
  Some (index r, eq_shifted (species <$> prev_row df i) (species r)).
Proof.
  intros Hi.
  assert (column species df !! i = Some (index r, species r)) as Hc
    by (by rewrite column_lookup, Hi).
  erewrite series_zip_lookup; [| by eapply shift_lookup | exact Hc].
  do 3 f_equal. destruct i as [|j]; simpl; [done|].
  rewrite column_lookup. by destruct (df !! j).
Qed.

(** The column [gap] of line 54, position by position. *)
Lemma gap_lookup (df : DataFrame) (i : nat) (r : Row) :
  df !! i = Some r ->
  series_zip sub_shifted (column start df) (shift (column end_ df)) !! i =
  Some (index r, sub_shifted (start r) (end_ <$> prev_row df i)).
Proof.
  intros Hi.
  assert (column start df !! i = Some (index r, start r)) as Hc
    by (by rewrite column_lookup, Hi).
  assert (column end_ df !! i = Some (index r, end_ r)) as Hc'
    by (by rewrite column_lookup, Hi).
  erewrite series_zip_lookup; [| exact Hc | by eapply shift_lookup].
  do 3 f_equal. destruct i as [|j]; simpl; [done|].
  rewrite column_lookup. by destruct (df !! j).
Qed.

(** Row by row, the frame [_gap_time] returns is the sorted group with the
    two columns of [gap_row]. *)
Lemma _gap_time_lookup (df : DataFrame) (i : nat) :
  NoDup (map index (sort_values df)) ->
  _gap_time sort_values df !! i =
  gap_row (prev_row (sort_values df) i) <$> sort_values df !! i.
Proof.
  intros Hnd. unfold _gap_time.
  set (sdf := sort_values df) in *.
  set (T := series_zip eq_shifted (shift (column species sdf)) (column species sdf)).
  set (G := series_zip sub_shifted (column start sdf) (shift (column end_ sdf))).
  assert (map fst T = map index sdf) as HTl.
  { unfold T. rewrite series_zip_labels.
    - unfold shift. rewrite fst_zip; [apply column_labels|].
      simpl. rewrite !length_map. lia.
    - rewrite shift_length. reflexivity. }
  assert (map fst G = map index sdf) as HGl.
  { unfold G. rewrite series_zip_labels; [apply column_labels|].
    rewrite shift_length. unfold column. by rewrite !length_map. }
  rewrite list_lookup_fmap, lookup_zip_with.
  destruct (sdf !! i) as [r|] eqn:Hi; [|done]. simpl.
  pose proof (transition_lookup sdf i r Hi) as HT. fold T in HT.
  pose proof (gap_lookup sdf i r Hi) as HG. fold G in HG.
  rewrite HT. simpl. unfold gap_row. f_equal. f_equal.
  rewrite (series_get_fmap (option_map total_seconds)), series_get_loc_mask.
  rewrite (series_get_lookup T i _ _ ltac:(by rewrite HTl) HT).
  destruct (eq_shifted (species <$> prev_row sdf i) (species r)) eqn:Ht; [|done].
  destruct i as [|j]; [done|].
  unfold iloc_from_1.
  rewrite (series_get_lookup (tail G) j (index r)
             (sub_shifted (start r) (end_ <$> prev_row sdf (S j)))).
  - reflexivity.
  - destruct G as [|g G']; [done|]. simpl in *. rewrite <- HGl in Hnd.
    by apply NoDup_cons in Hnd as [_ ?].
  - by rewrite lookup_tail.
Qed.

End GapTimeFacts.

(** * Part 11: facts about [groupby] and the gap-time frame *)

Lemma str_eqb_eq (a b : string) : str_eqb a b = true <-> a = b.
Proof. apply String.eqb_eq. Qed.

Lemma groupby_elem (by_ : Row -> string) (df : DataFrame) (k : string)
    (g : DataFrame) :
  (k, g) ∈ groupby by_ df <->
  k ∈ map by_ df /\ g = List.filter (fun r => str_eqb (by_ r) k) df.
Proof.
  unfold groupby. rewrite list_elem_of_fmap. split.
  - intros (k' & Heq & Hk). injection Heq as -> ->. split; [|done].
    by rewrite merge_sort_Permutation, elem_of_remove_dups in Hk.
  - intros [Hk ->]. exists k. split; [done|].
    by rewrite merge_sort_Permutation, elem_of_remove_dups.
Qed.

Lemma groupby_keys_NoDup (by_ : Row -> string) (df : DataFrame) :
  NoDup (map fst (groupby by_ df)).
Proof.
  unfold groupby. rewrite map_map. simpl. rewrite map_id.
  rewrite merge_sort_Permutation. apply NoDup_remove_dups.
Qed.


Lemma filter_index_NoDup (p : Row -> bool) (df : DataFrame) :
  NoDup (map index df) -> NoDup (map index (List.filter p df)).
Proof.
  induction df as [|r df IH]; simpl; [done|].
  intros Hnd. apply NoDup_cons in Hnd as [Hr Hnd].
  destruct (p r); simpl; [|by apply IH].
  apply NoDup_cons. split; [|by apply IH].
  intros Hin. apply Hr.
  apply list_elem_of_fmap in Hin as (r' & -> & Hin).
  apply list_elem_of_fmap. exists r'. split; [done|].
  apply list_elem_of_In in Hin. apply filter_In in Hin as [Hin _].
  by apply list_elem_of_In.
Qed.

#[local] Instance start_le_total : Total start_le.
Proof. intros a b. unfold start_le. lia. Qed.

Lemma merge_sort_values_perm (df : DataFrame) : merge_sort_values df ≡ₚ df.
Proof. apply merge_sort_Permutation. Qed.

Lemma merge_sort_values_sorted (df : DataFrame) :
  Sorted start_le (merge_sort_values df).
Proof. apply (Sorted_merge_sort start_le). Qed.

Section GapFrameFacts.
Variable sort_values : DataFrame -> DataFrame.
Hypothesis sort_values_perm : forall df, sort_values df ≡ₚ df.

Lemma sorted_group_NoDup (df : DataFrame) (k : string) :
  NoDup (map index df) ->
  NoDup (map index (sort_values (rows_of_file k df))).
Proof.
  intros Hnd. rewrite sort_values_perm. by apply filter_index_NoDup.
Qed.

(** The rows of the frame [_gap_time] returns are the rows of the sorted
    group. *)
Lemma _gap_time_rows (df : DataFrame) :
  NoDup (map index (sort_values df)) ->
  map table_row (_gap_time sort_values df) = sort_values df.
Proof.
  intros Hnd. apply list_eq. intros i.
  rewrite list_lookup_fmap, _gap_time_lookup by done.
  by destruct (sort_values df !! i).
Qed.

End GapFrameFacts.

Lemma Sorted_lookup_adjacent {A} (R : relation A) (l : list A) (j : nat) (a b : A) :
  Sorted R l -> l !! j = Some a -> l !! (S j) = Some b -> R a b.
Proof.
  intros Hs. revert j. induction Hs as [|x l Hs IH Hd]; intros j Ha Hb; [done|].
  destruct j as [|j]; simpl in *.
  - injection Ha as ->. destruct l as [|y l]; [done|]. simpl in Hb.
    injection Hb as ->. by inversion Hd.
  - by eapply IH.
Qed.

Lemma swarm_points_with_species (f : string -> string) (gaps : list GapRow) :
  swarm_points (map (with_species f) gaps) =
  omap (fun g => (fun y => (f (species (table_row g)), y)) <$> gap g) gaps.
Proof.
  unfold swarm_points. induction gaps as [|g gaps IH]; simpl; [done|].
  unfold omap in *. simpl in *. rewrite IH. by destruct (gap g).
Qed.

Lemma with_species_compose (f h : string -> string) (gaps : list GapRow) :
  map (with_species f) (map (with_species h) gaps) =
  map (with_species (fun s => f (h s))) gaps.
Proof. rewrite map_map. reflexivity. Qed.

(** The frame that is plotted holds the rows of the groups with their
    species renamed, then the same rows under the species "total". *)
Lemma gaps_frame_unfold (sort_values : DataFrame -> DataFrame) (df : DataFrame) :
  gaps_frame sort_values df =
  map (with_species rename) (gaps_by_file sort_values df) ++
  map (with_species (fun _ => "total")) (gaps_by_file sort_values df).
Proof.
  unfold gaps_frame. rewrite map_app, with_species_compose. reflexivity.
Qed.

(** The gaps of the sample table, file by file: in "s1" only the third
    press follows a press of its own species; in "s2" the rows are put in
    order of start first. *)
Example gaps_of_table :
  map (fun g => (index (table_row g), transition g, gap g))
      (gaps_by_file merge_sort_values Examples.table) =
  [ (0%nat, false, None);
    (1%nat, false, None);
    (2%nat, true, Some (total_seconds (Examples.sec 4)));
    (4%nat, false, None);
    (3%nat, true, Some (total_seconds (Examples.sec 2))) ].
Proof. reflexivity. Qed.

Example swarm_points_of_table :
  swarm_points (gaps_frame merge_sort_values Examples.table) =
  [ ("human -> dog", total_seconds (Examples.sec 4));
    ("human -> dog", total_seconds (Examples.sec 2));
    ("total", total_seconds (Examples.sec 4));
    ("total", total_seconds (Examples.sec 2)) ].
Proof. reflexivity. Qed.

(** ** C3 and C8 *)


Section GapTimeClaims.
Variable sort_values : DataFrame -> DataFrame.
Hypothesis sort_values_perm : forall df, sort_values df ≡ₚ df.
Hypothesis sort_values_sorted : forall df, Sorted start_le (sort_values df).


(** C8: in the gap-time computation an event keeps a gap value exactly when
    it has an event before it in its file, sorted by start, and that event
    has the same species; where the species changes the gap is dropped.
    The points plotted are the gaps kept, once under the renamed species and
    once under "total". *)
Theorem gap_kept_iff_same_species (df : DataFrame) :
  NoDup (map index df) ->
  (forall k g, (k, g) ∈ groupby file_id df ->
     forall i gr, _gap_time sort_values g !! i = Some gr ->
       (is_Some (gap gr) <->
        exists j prev,
          i = S j /\ _gap_time sort_values g !! j = Some prev /\
          species (table_row prev) = species (table_row gr)) /\
       (forall j prev,
          i = S j -> _gap_time sort_values g !! j = Some prev ->
          file_id (table_row prev) = k /\ file_id (table_row gr) = k /\
          start (table_row prev) <= start (table_row gr))) /\
  swarm_points (gaps_frame sort_values df) =
    omap (fun g => (fun y => (rename (species (table_row g)), y)) <$> gap g)
         (gaps_by_file sort_values df) ++
    omap (fun g => (fun y => ("total", y)) <$> gap g)
         (gaps_by_file sort_values df).
Proof.
  intros Hnd. split.
  2:{ rewrite gaps_frame_unfold. unfold swarm_points at 1.
      rewrite omap_app. fold (swarm_points (map (with_species rename)
        (gaps_by_file sort_values df))).
      fold (swarm_points (map (with_species (fun _ => "total"))
        (gaps_by_file sort_values df))).
      by rewrite !swarm_points_with_species. }
  intros k g Hg i gr Hi. apply groupby_elem in Hg as [_ ->].
  fold (rows_of_file k df) in *.
  pose proof (sorted_group_NoDup sort_values sort_values_perm df k Hnd) as Hnd'.
  pose proof (_gap_time_rows sort_values _ Hnd') as Hrows.
  assert (forall n x, _gap_time sort_values (rows_of_file k df) !! n = Some x ->
            sort_values (rows_of_file k df) !! n = Some (table_row x)) as Hrow.
  { intros n x Hx. rewrite <- Hrows, list_lookup_fmap, Hx. reflexivity. }
  assert (forall n x, _gap_time sort_values (rows_of_file k df) !! n = Some x ->
            file_id (table_row x) = k) as Hfile.
  { intros n x Hx. apply Hrow in Hx. apply list_elem_of_lookup_2 in Hx.
    rewrite sort_values_perm in Hx. apply list_elem_of_In, filter_In in Hx.
    destruct Hx as [_ Hx]. by apply str_eqb_eq. }
  split.
  - pose proof Hi as Hi'. rewrite _gap_time_lookup in Hi' by done.
    destruct (sort_values (rows_of_file k df) !! i) as [r|] eqn:Hr; [|done].
    injection Hi' as <-. simpl. destruct i as [|j]; simpl.
    + split; [by intros [q Hq] | by intros (j & p & Hj & _)].
    + destruct (sort_values (rows_of_file k df) !! j) as [p|] eqn:Hp.
      2:{ apply lookup_ge_None in Hp. apply lookup_lt_Some in Hr. lia. }
      simpl. split.
      * intros Hsome. exists j, (gap_row (prev_row (sort_values (rows_of_file k df)) j) p).
        split; [done|]. split; [by rewrite _gap_time_lookup, Hp|]. simpl.
        destruct (str_eqb (species p) (species r)) eqn:E;
          [by apply str_eqb_eq | by destruct Hsome].
      * intros (j' & prev & [= <-] & Hprev & Hsp).
        apply Hrow in Hprev. rewrite Hp in Hprev. injection Hprev as ->.
        apply str_eqb_eq in Hsp. rewrite Hsp. done.
  - intros j prev -> Hprev. split; [by eapply Hfile|]. split; [by eapply Hfile|].
    eapply (Sorted_lookup_adjacent start_le); [apply sort_values_sorted| |];
      by apply Hrow.
Qed.

End GapTimeClaims.


Lemma gap_kept_iff_same_species_witness :
  NoDup (map index Examples.table) /\
  exists gr,
    _gap_time merge_sort_values (rows_of_file "s1" Examples.table) !! 2%nat
      = Some gr /\
    (is_Some (gap gr) <->
     exists j prev,
       2%nat = S j /\
       _gap_time merge_sort_values (rows_of_file "s1" Examples.table) !! j
         = Some prev /\
       species (table_row prev) = species (table_row gr)).
Proof.
  assert (NoDup (map index Examples.table)) as Hnd
    by (apply (bool_decide_unpack _); vm_compute; exact I).
  assert (("s1", rows_of_file "s1" Examples.table)
            ∈ groupby file_id Examples.table) as Hg
    by (apply groupby_elem; split; [vm_compute; constructor | reflexivity]).
  split; [exact Hnd|].
  destruct (_gap_time merge_sort_values (rows_of_file "s1" Examples.table) !! 2%nat)
    as [gr|] eqn:Hgr; [|discriminate Hgr].
  exists gr. split; [reflexivity|].
  exact (proj1 (proj1 (gap_kept_iff_same_species merge_sort_values
           merge_sort_values_perm merge_sort_values_sorted Examples.table Hnd)
         "s1" (rows_of_file "s1" Examples.table) Hg 2%nat gr Hgr)).
Defined.

(** ** C9 *)

(** C9: the renaming applied to the species before the gap times are
    plotted sends both "canis familiaris" and the misspelt "homo sapeins"
    to "human -> dog", leaves "homo sapiens" as it is, and leaves every
    other species as it is. *)
Theorem rename_merges_dog_and_misspelt_human :
  rename "canis familiaris" = "human -> dog" /\
  rename "homo sapeins" = "human -> dog" /\
  rename "homo sapiens" = "homo sapiens" /\
  (forall s, rename s =
     if bool_decide (s = "homo sapeins" \/ s = "canis familiaris")
     then "human -> dog" else s) /\
  (forall sort_values df,
     map (fun g => species (table_row g)) (gaps_frame sort_values df) =
     map (fun g => rename (species (table_row g))) (gaps_by_file sort_values df)
     ++ map (fun _ => "total") (gaps_by_file sort_values df)).
Proof.
  split; [reflexivity|]. split; [reflexivity|]. split; [reflexivity|]. split.
  - intros s. unfold rename.
    destruct (String.eqb s "homo sapeins") eqn:E1.
    { apply String.eqb_eq in E1 as ->. reflexivity. }
    destruct (String.eqb s "canis familiaris") eqn:E2.
    { apply String.eqb_eq in E2 as ->. reflexivity. }
    apply String.eqb_neq in E1, E2.
    rewrite bool_decide_eq_false_2; [done|]. by intros [|].
  - intros sort_values df. rewrite gaps_frame_unfold, map_app, !map_map.
    reflexivity.
Qed.

(** ** C10 *)

(** Events at the hours 0, 1, 22, 23 and 23: the bins are the 23 intervals
    of width one from 0 to 23, and the last one counts hours 22 and 23. *)
Example histogram_full_day :
  histogram [0; 1; 22; 23; 23] N =
  [1; 1; 0; 0; 0; 0; 0; 0; 0; 0; 0; 0; 0; 0; 0; 0; 0; 0; 0; 0; 0; 0; 3]%nat.
Proof. reflexivity. Qed.

(** Events at one hour only: the range is widened, the hour is in the
    middle bin. *)
Example histogram_one_hour :
  histogram [5; 5] N =
  [0; 0; 0; 0; 0; 0; 0; 0; 0; 0; 0; 2; 0; 0; 0; 0; 0; 0; 0; 0; 0; 0; 0]%nat.
Proof. reflexivity. Qed.

Example hour_of_timestamp : hour (Examples.sec (86400 + 2 * 3600 + 5)) = 2.
Proof. reflexivity. Qed.





Lemma fold_min_bounds (x : Z) (xs : list Z) (y : Z) :
  In y (x :: xs) -> fold_right Z.min x xs <= y.
Proof.
  induction xs as [|z xs IH]; simpl.
  - intros [->|[]]. lia.
  - intros [->|[->|Hin]].
    + specialize (IH (or_introl eq_refl)). lia.
    + lia.
    + specialize (IH (or_intror Hin)). lia.
Qed.

Lemma fold_max_bounds (x : Z) (xs : list Z) (y : Z) :
  In y (x :: xs) -> y <= fold_right Z.max x xs.
Proof.
  induction xs as [|z xs IH]; simpl.
  - intros [->|[]]. lia.
  - intros [->|[->|Hin]].
    + specialize (IH (or_introl eq_refl)). lia.
    + lia.
    + specialize (IH (or_intror Hin)). lia.
Qed.










(** * Part 12: facts about counters and the n-grams *)

Section CounterFacts.
Context {K : Type} `{EqDecision K}.

Lemma counter_get_add (k k' : K) (c : list (K * nat)) :
  counter_get (counter_add k c) k' =
  if decide (k' = k) then S (counter_get c k') else counter_get c k'.
Proof.
  induction c as [|[k0 n] c IH]; simpl.
  - by destruct (decide (k' = k)).
  - destruct (decide (k = k0)) as [->|Hne]; simpl.
    + by destruct (decide (k' = k0)).
    + destruct (decide (k' = k0)) as [->|Hne'].
      * by rewrite decide_False by done.
      * exact IH.
Qed.

Lemma counter_add_keys (k : K) (c : list (K * nat)) :
  map fst (counter_add k c) =
  if decide (k ∈ map fst c) then map fst c else map fst c ++ [k].
Proof.
  induction c as [|[k0 n] c IH]; simpl; [done|].
  destruct (decide (k = k0)) as [->|Hne]; simpl.
  - rewrite decide_True; [done|]. by left.
  - rewrite IH. destruct (decide (k ∈ map fst c)) as [Hin|Hnin].
    + rewrite decide_True; [done|]. by right.
    + rewrite decide_False; [done|].
      intros Hin. apply elem_of_cons in Hin as [|]; done.
Qed.

Lemma fold_counter_get (xs : list K) (c : list (K * nat)) (k : K) :
  counter_get (fold_left (fun c k => counter_add k c) xs c) k =
  (counter_get c k + occurrences k xs)%nat.
Proof.
  revert c. induction xs as [|x xs IH]; intros c; simpl.
  - unfold occurrences. simpl. lia.
  - rewrite IH, counter_get_add. unfold occurrences. simpl.
    destruct (decide (k = x)) as [->|Hne].
    + rewrite bool_decide_eq_true_2 by done. simpl. lia.
    + rewrite bool_decide_eq_false_2 by congruence. lia.
Qed.

(** A counter gives every key the number of its occurrences. *)
Lemma Counter_get (xs : list K) (k : K) :
  counter_get (Counter xs) k = occurrences k xs.
Proof. unfold Counter. by rewrite fold_counter_get. Qed.

Lemma fold_counter_keys (xs : list K) (c : list (K * nat)) :
  NoDup (map fst c) ->
  NoDup (map fst (fold_left (fun c k => counter_add k c) xs c)) /\
  forall k, k ∈ map fst (fold_left (fun c k => counter_add k c) xs c) <->
            k ∈ map fst c \/ k ∈ xs.
Proof.
  revert c. induction xs as [|x xs IH]; intros c Hnd; simpl.
  - split; [done|]. intros k. rewrite elem_of_nil. tauto.
  - destruct (IH (counter_add x c)) as [Hnd' Hin].
    + rewrite counter_add_keys. destruct (decide (x ∈ map fst c)); [done|].
      apply NoDup_app. split; [done|]. split; [|apply NoDup_singleton].
      intros y Hy Hy'. apply list_elem_of_singleton in Hy' as ->. done.
    + split; [done|]. intros k. rewrite Hin, counter_add_keys, elem_of_cons.
      destruct (decide (x ∈ map fst c)) as [Hx|Hx].
      * split; [tauto|]. intros [?|[->|?]]; tauto.
      * rewrite elem_of_app, list_elem_of_singleton. tauto.
Qed.

(** A counter lists every element once. *)
Lemma Counter_keys (xs : list K) :
  NoDup (map fst (Counter xs)) /\
  forall k, k ∈ map fst (Counter xs) <-> k ∈ xs.
Proof.
  destruct (fold_counter_keys xs []) as [Hnd Hin]; [constructor|].
  split; [exact Hnd|]. intros k. unfold Counter. rewrite Hin. simpl.
  rewrite elem_of_nil. tauto.
Qed.

Lemma counter_get_elem (c : list (K * nat)) (k : K) (n : nat) :
  NoDup (map fst c) -> (k, n) ∈ c -> counter_get c k = n.
Proof.
  induction c as [|[k0 n0] c IH]; intros Hnd Hin; [by apply elem_of_nil in Hin|].
  simpl in *. apply NoDup_cons in Hnd as [Hk0 Hnd].
  apply elem_of_cons in Hin as [[= -> ->]|Hin].
  - by rewrite decide_True.
  - rewrite decide_False; [by apply IH|].
    intros ->. apply Hk0. apply list_elem_of_fmap. by exists (k0, n).
Qed.

End CounterFacts.

Section MostCommonFacts.
Context {K : Type}.

Lemma most_common_insert_perm (x : K * nat) (l : list (K * nat)) :
  most_common_insert x l ≡ₚ x :: l.
Proof.
  induction l as [|y l IH]; simpl; [done|].
  destruct (Nat.leb (snd y) (snd x)); [done|].
  rewrite IH. apply perm_swap.
Qed.

Lemma most_common_perm (c : list (K * nat)) : most_common c ≡ₚ c.
Proof.
  induction c as [|x c IH]; simpl; [done|].
  rewrite most_common_insert_perm. by rewrite IH.
Qed.

Lemma most_common_insert_sorted (x : K * nat) (l : list (K * nat)) :
  Sorted count_ge l -> Sorted count_ge (most_common_insert x l).
Proof.
  induction 1 as [|y l Hs IH Hd]; simpl.
  - repeat constructor.
  - destruct (Nat.leb (snd y) (snd x)) eqn:E.
    + apply Nat.leb_le in E. repeat constructor; done.
    + apply Nat.leb_gt in E. constructor; [exact IH|].
      destruct Hd as [|z l Hz]; simpl.
      * constructor. unfold count_ge. lia.
      * destruct (Nat.leb (snd z) (snd x)); constructor; unfold count_ge in *; lia.
Qed.

(** [most_common] lists the items by count, largest first. *)
Lemma most_common_sorted (c : list (K * nat)) : Sorted count_ge (most_common c).
Proof.
  induction c as [|x c IH]; simpl; [constructor|].
  by apply most_common_insert_sorted.
Qed.

End MostCommonFacts.

Lemma sorted_pair_sym (a b : string) : sorted_pair a b = sorted_pair b a.
Proof.
  unfold sorted_pair, String.ltb.
  rewrite (String.compare_antisym a b).
  destruct (String.compare b a) eqn:E; simpl; try reflexivity.
  by apply String.compare_eq_iff in E as ->.
Qed.

Lemma sorted_pair_cases (a b : string) :
  sorted_pair a b = (a, b) \/ sorted_pair a b = (b, a).
Proof. unfold sorted_pair. destruct (String.ltb b a); auto. Qed.

(** Two pairs are counted under one key exactly when they hold the same two
    contents, in either order. *)
Lemma sorted_pair_eq (a b x y : string) :
  sorted_pair x y = sorted_pair a b <->
  (x = a /\ y = b) \/ (x = b /\ y = a).
Proof.
  split.
  - destruct (sorted_pair_cases x y) as [-> | ->],
      (sorted_pair_cases a b) as [-> | ->]; intros [= -> ->]; auto.
  - intros [[-> ->]|[-> ->]]; [reflexivity | apply sorted_pair_sym].
Qed.

Lemma group_pairs_lookup (gdf : DataFrame) (i : nat) (r1 r2 : Row) :
  gdf !! i = Some r1 -> gdf !! S i = Some r2 ->
  group_pairs gdf !! i = Some (sorted_pair (content r1) (content r2)).
Proof.
  intros H1 H2. unfold group_pairs, iloc_from_1.
  rewrite list_lookup_fmap, lookup_zip_with, lookup_tail, !list_lookup_fmap.
  by rewrite H1, H2.
Qed.

Lemma group_pairs_length (gdf : DataFrame) :
  length (group_pairs gdf) = pred (length gdf).
Proof.
  unfold group_pairs, iloc_from_1.
  rewrite length_map, length_zip_with, length_tl, !length_map. lia.
Qed.

Lemma group_pairs_elem (gdf : DataFrame) (p : string * string) :
  p ∈ group_pairs gdf ->
  exists pre r1 r2 post,
    gdf = pre ++ r1 :: r2 :: post /\
    p = sorted_pair (content r1) (content r2).
Proof.
  intros Hp. apply list_elem_of_lookup in Hp as [i Hi].
  assert (i < length (group_pairs gdf))%nat as Hlen by by eapply lookup_lt_Some.
  rewrite group_pairs_length in Hlen.
  destruct (lookup_lt_is_Some_2 gdf i) as [r1 H1]; [lia|].
  destruct (lookup_lt_is_Some_2 gdf (S i)) as [r2 H2]; [lia|].
  rewrite (group_pairs_lookup gdf i r1 r2 H1 H2) in Hi. injection Hi as <-.
  exists (take i gdf), r1, r2, (drop (S (S i)) gdf). split; [|done].
  rewrite <- (take_drop_middle gdf i r1 H1) at 1. f_equal. f_equal.
  by apply drop_S.
Qed.

Lemma occurrences_app {K} `{EqDecision K} (k : K) (xs ys : list K) :
  occurrences k (xs ++ ys) = (occurrences k xs + occurrences k ys)%nat.
Proof. unfold occurrences. by rewrite List.filter_app, length_app. Qed.

Lemma occurrences_flat_map {K X} `{EqDecision K} (k : K) (f : X -> list K)
    (l : list X) :
  occurrences k (flat_map f l) = sum_list (map (fun x => occurrences k (f x)) l).
Proof.
  induction l as [|x l IH]; simpl; [done|].
  by rewrite occurrences_app, IH.
Qed.

(** What [ngrams] sends out. *)
Lemma ngrams_unfold (df : DataFrame) :
  ngrams df =
  ([ write "data/canine_ngrams.csv"
       (most_common (Counter (ngrams_list (List.filter canine_mask df))));
     write "data/human_ngrams.csv"
       (most_common (Counter (ngrams_list (List.filter human_mask df)))) ],
   inr tt).
Proof. reflexivity. Qed.

Example ngrams_list_of_table :
  ngrams_list Examples.table =
  [ ("walk", "walk"); ("play", "walk"); ("food", "play") ].
Proof. reflexivity. Qed.

Example most_common_is_stable :
  most_common (Counter ["a"; "b"; "b"; "c"; "c"; "a"; "d"; "b"]) =
  [ ("b", 3%nat); ("a", 2%nat); ("c", 2%nat); ("d", 1%nat) ].
Proof. reflexivity. Qed.

(** ** C5 *)

(** C5: the n-grams are counts of adjacent pairs.  The filtered rows are
    grouped by file_id; in each group every two consecutive rows give one
    pair of contents, and nothing else does; the count written for a key is
    the number of pairs with that key, summed over the groups; two pairs
    have one key exactly when they hold the same two contents in either
    order; and the two rows of a pair are consecutive rows of one file. *)
Theorem ngrams_count_adjacent_pairs (tokens : DataFrame) :
  (forall k g, (k, g) ∈ groupby file_id tokens ->
     g = rows_of_file k tokens /\
     length (group_pairs g) = pred (length g) /\
     forall i r1 r2, g !! i = Some r1 -> g !! S i = Some r2 ->
       group_pairs g !! i = Some (sorted_pair (content r1) (content r2))) /\
  (forall p,
     counter_get (Counter (ngrams_list tokens)) p =
     sum_list (map (fun g => occurrences p (group_pairs (snd g)))
                   (groupby file_id tokens))) /\
  (forall a b x y,
     sorted_pair x y = sorted_pair a b <->
     (x = a /\ y = b) \/ (x = b /\ y = a)) /\
  (forall p, p ∈ ngrams_list tokens ->
     exists k pre r1 r2 post,
       rows_of_file k tokens = pre ++ r1 :: r2 :: post /\
       file_id r1 = k /\ file_id r2 = k /\
       p = sorted_pair (content r1) (content r2)) /\
  (forall df,
     ngram_files (fst (ngrams df)) =
     [ ("data/canine_ngrams.csv",
        most_common (Counter (ngrams_list (List.filter canine_mask df))));
       ("data/human_ngrams.csv",
        most_common (Counter (ngrams_list (List.filter human_mask df)))) ]).
Proof.
  split; [|split; [|split; [|split]]].
  - intros k g Hg. apply groupby_elem in Hg as [_ ->].
    split; [done|]. split; [apply group_pairs_length|].
    apply group_pairs_lookup.
  - intros p. rewrite Counter_get. apply occurrences_flat_map.
  - intros a b x y. apply sorted_pair_eq.
  - intros p Hp. unfold ngrams_list in Hp.
    apply list_elem_of_In, in_flat_map in Hp as ([k g] & Hg & Hp).
    apply list_elem_of_In, groupby_elem in Hg as [_ ->]. simpl in Hp.
    apply list_elem_of_In, group_pairs_elem in Hp
      as (pre & r1 & r2 & post & Hrows & ->).
    exists k, pre, r1, r2, post. split; [exact Hrows|].
    assert (forall r, In r (pre ++ r1 :: r2 :: post) -> file_id r = k) as Hfile.
    { intros r Hr. rewrite <- Hrows in Hr. apply filter_In in Hr as [_ Hr].
      by apply str_eqb_eq. }
    split; [|split; [|done]]; apply Hfile, in_or_app; right; simpl; auto.
  - intros df. reflexivity.
Qed.

Lemma ngrams_count_adjacent_pairs_witness :
  counter_get (Counter (ngrams_list Examples.table)) ("play", "walk") = 1%nat /\
  group_pairs (rows_of_file "s1" Examples.table) !! 1%nat
    = Some (sorted_pair "walk" "play").
Proof.
  pose proof (ngrams_count_adjacent_pairs Examples.table) as (Hg & Hc & _).
  split.
  - rewrite Hc. reflexivity.
  - destruct (Hg "s1" (rows_of_file "s1" Examples.table)) as (_ & _ & Hp).
    + apply groupby_elem. split; [|reflexivity]. vm_compute. constructor.
    + by apply (Hp 1%nat (Examples.press 1 "s1" 15 16 "canis familiaris" "walk")
                  (Examples.press 2 "s1" 20 21 "canis familiaris" "play")).
Defined.

(** * Part 13: facts about [main] *)

Section MainFacts.
Variable sort_values : DataFrame -> DataFrame.
Variable make_frame : list row -> result DataFrame.

Lemma main_unfold (data_dir : string) (files : list (result json)) :
  main sort_values make_frame data_dir files =
  match load_rows files [] with
  | inl e => ([print (text "data directory: " data_dir)], inl e)
  | inr rows =>
      match make_frame rows with
      | inl e => ([print (text "data directory: " data_dir)], inl e)
      | inr df =>
          (print (text "data directory: " data_dir)
             :: analysis_effects sort_values df,
           inr tt)
      end
  end.
Proof.
  unfold main. simpl.
  destruct (load_rows files []) as [e|rows]; [reflexivity|]. simpl.
  destruct (make_frame rows) as [e|df]; reflexivity.
Qed.

Lemma analysis_files_written (df : DataFrame) :
  files_written (analysis_effects sort_values df) =
  [ "table.csv"; "data/button_count"; "data/gaps.png";
    "data/press_by_hour.png"; "data/canine_ngrams.csv";
    "data/human_ngrams.csv" ].
Proof. reflexivity. Qed.

(** The loop over the files returns the rows it was given followed by the
    rows of every file, file after file. *)
Lemma load_rows_inr (files : list (result json)) :
  forall rows out,
    load_rows files rows = inr out <->
    exists streams per_file,
      files = map inr streams /\
      Forall2 (fun s rs => tabulate s = inr rs) streams per_file /\
      out = rows ++ concat per_file.
Proof.
  induction files as [|f files IH]; intros rows out; simpl.
  - split.
    + intros [= <-]. exists [], []. split; [done|]. split; [constructor|].
      by rewrite app_nil_r.
    + intros (streams & per_file & Hs & H & ->).
      destruct streams; [|discriminate]. inversion H. by rewrite app_nil_r.
  - split.
    + intros H. apply bind_inr in H as (s & -> & H).
      apply bind_inr in H as (rs & Hrs & H).
      apply IH in H as (streams & per_file & -> & H & ->).
      exists (s :: streams), (rs :: per_file).
      split; [done|]. split; [by constructor|]. simpl. by rewrite app_assoc.
    + intros (streams & per_file & Hs & H & ->).
      destruct streams as [|s streams]; [discriminate|].
      injection Hs as -> ->. inversion H as [|? rs ? per_file' Hrs H']; subst.
      simpl. rewrite Hrs. simpl. apply IH. exists streams, per_file'.
      split; [done|]. split; [done|]. simpl. by rewrite app_assoc.
Qed.

(** The loop stops at the first file that fails, with its exception. *)
Lemma load_rows_first_failure (good rest : list (result json))
    (bad : result json) (e : exn) :
  Forall loads good -> fails_with bad e ->
  forall rows, load_rows (good ++ bad :: rest) rows = inl e.
Proof.
  intros Hgood Hbad.
  induction Hgood as [|f good (s & rs & -> & Hrs) _ IH]; intros rows; simpl.
  - destruct Hbad as [->|(s & -> & Hs)]; [reflexivity|].
    simpl. by rewrite Hs.
  - rewrite Hrs. simpl. apply IH.
Qed.

Lemma loads_or_fails (f : result json) : loads f \/ exists e, fails_with f e.
Proof.
  destruct f as [e|s].
  - right. exists e. by left.
  - destruct (tabulate s) as [e|rs] eqn:E.
    + right. exists e. right. by exists s.
    + left. by exists s, rs.
Qed.

Lemma first_failure (files : list (result json)) :
  Exists (fun f => exists e, fails_with f e) files ->
  exists good bad rest e,
    files = good ++ bad :: rest /\ Forall loads good /\ fails_with bad e.
Proof.
  induction files as [|f files IH]; intros H; [by apply Exists_nil in H|].
  destruct (loads_or_fails f) as [Hf|[e Hf]].
  - apply Exists_cons in H as [(e & [He|(s & He & Hs)])|H].
    + destruct Hf as (s & rs & -> & _). discriminate.
    + destruct Hf as (s' & rs & -> & Hrs). injection He as <-. congruence.
    + destruct (IH H) as (good & bad & rest & e & -> & Hgood & Hbad).
      exists (f :: good), bad, rest, e. split; [done|]. split; [|done].
      by constructor.
  - exists [], f, files, e. split; [done|]. split; [constructor|done].
Qed.

End MainFacts.

Lemma In_Forall2_l {X Y} (P : X -> Y -> Prop) (l : list X) (k : list Y) (x : X) :
  Forall2 P l k -> In x l -> exists y, P x y.
Proof.
  intros H Hin. apply list_elem_of_In, list_elem_of_lookup in Hin as [i Hi].
  destruct (Forall2_lookup_l _ _ _ _ _ H Hi) as (y & _ & Hy). by exists y.
Qed.

Lemma getitem_missing (items : list (string * json)) (f : string) :
  dict_get items f = None -> raises (getitem (JObj items) f).
Proof. intros H. simpl. rewrite H. by eexists. Qed.

(** ** C6 *)

(** [tabulate] raises on every malformed stream. *)
Lemma malformed_raises (s : json) : malformed s -> raises (tabulate s).
Proof.
  intros Hbad.
  destruct (raises_or_returns (tabulate s)) as [H|[rows H]]; [done|].
  exfalso. apply tabulate_inr in H
    as (fid & p & st & en & ags & d & evs & Hf & Hp & Hst & Hen & Hags & Hd
        & Hevs & Hrows).
  apply bind_inr in Hags as (vags & Hvags & Hiags).
  apply bind_inr in Hevs as (vevs & Hvevs & Hievs).
  destruct Hbad as [items f -> Hin Hnone
                   | agents items f Hagents Hin Hf' Hnone
                   | events items f Hevents Hin Hf' Hnone
                   | agents events e a Hagents Hevents Hin Ha Hno].
  - apply getitem_missing in Hnone as [x Hx]. simpl in Hin.
    repeat (destruct Hin as [<-|Hin]; [congruence|]). destruct Hin.
  - rewrite Hagents in Hvags. injection Hvags as <-. injection Hiags as <-.
    eapply raises_not_inr; [|exact Hd]. apply comprehension_raises.
    apply Exists_exists. exists (JObj items).
    split; [by apply list_elem_of_In|].
    apply getitem_missing in Hnone. simpl in Hf'.
    destruct Hf' as [<-|[<-|[]]]; auto.
  - rewrite Hevents in Hvevs. injection Hvevs as <-. injection Hievs as <-.
    destruct (In_Forall2_l _ _ _ _ Hrows Hin) as [r Hr].
    eapply raises_not_inr; [|exact Hr].
    eapply tabulate_row_raises_field; [exact Hf'|].
    by apply getitem_missing.
  - rewrite Hagents in Hvags. injection Hvags as <-. injection Hiags as <-.
    rewrite Hevents in Hvevs. injection Hvevs as <-. injection Hievs as <-.
    destruct (In_Forall2_l _ _ _ _ Hrows Hin) as [r Hr].
    eapply raises_not_inr; [|exact Hr].
    eapply tabulate_row_raises_unlisted; [exact Ha|].
    intros k Hk. rewrite (comprehension_lookup _ _ _ Hd k), lookup_empty.
    destruct (last_agent agents k) as [ag|] eqn:Hlast; [|done].
    apply last_agent_Some in Hlast as [Hag Hid]. unfold agent_has_id in Hid.
    destruct (getitem ag "id") as [|id] eqn:Hgid; [done|]. simpl in Hid.
    destruct (hash id) as [|k'] eqn:Hk'; [done|].
    apply bool_decide_eq_true in Hid as ->.
    destruct (Hno ag id Hag Hgid). by exists k.
Qed.

Section MainClaims.
Variable sort_values : DataFrame -> DataFrame.
Variable make_frame : list row -> result DataFrame.

(** C6: on malformed input the program raises the library's exception and
    does nothing about it.  [tabulate] raises on every stream that has an
    event whose agent identifier is the id of no listed agent, or that lacks
    a required field; and when a file of the data directory is such a
    stream, or is a file on which the JSON loader raises, [main] ends with
    the exception of the first file that fails, having printed the name of
    the data directory and written no file. *)
Theorem malformed_input_raises (data_dir : string) (files : list (result json)) :
  Exists (fun f => match f with
                   | inl _ => True
                   | inr s => malformed s
                   end) files ->
  (forall s, malformed s -> raises (tabulate s)) /\
  exists good bad rest e,
    files = good ++ bad :: rest /\ Forall loads good /\ fails_with bad e /\
    main sort_values make_frame data_dir files =
      ([print (text "data directory: " data_dir)], inl e) /\
    files_written (fst (main sort_values make_frame data_dir files)) = [].
Proof.
  intros Hbad. split; [exact malformed_raises|].
  destruct (first_failure files) as (good & bad & rest & e & -> & Hgood & Hfail).
  { eapply Exists_impl; [exact Hbad|]. simpl. intros [e|s] H.
    - exists e. by left.
    - destruct (malformed_raises s H) as [e He]. exists e. right. by exists s. }
  exists good, bad, rest, e. split; [done|]. split; [done|]. split; [done|].
  rewrite main_unfold, (load_rows_first_failure good rest bad e Hgood Hfail).
  by split.
Qed.



End MainClaims.

(** A run on the sample session, and a run on an empty data directory. *)
Example main_session_files :
  let run := main merge_sort_values Examples.int_frame "data"
               [inr Examples.session] in
  snd run = inr tt /\
  files_written (fst run) =
    [ "table.csv"; "data/button_count"; "data/gaps.png";
      "data/press_by_hour.png"; "data/canine_ngrams.csv";
      "data/human_ngrams.csv" ] /\
  ngram_files (fst run) =
    [ ("data/canine_ngrams.csv", [("play", "walk", 1%nat)]);
      ("data/human_ngrams.csv", []) ].
Proof. repeat split. Qed.

Example main_empty_directory :
  main merge_sort_values Examples.int_frame "data" [] =
  ([print (text "data directory: " "data")], inl (AttributeError "start")).
Proof. reflexivity. Qed.

Example main_loader_raises :
  main merge_sort_values Examples.int_frame "data"
    [inr Examples.session; inl JSONDecodeError] =
  ([print (text "data directory: " "data")], inl JSONDecodeError).
Proof. reflexivity. Qed.

Lemma malformed_input_raises_witness :
  main merge_sort_values Examples.int_frame "data"
    [inr Examples.session; inr Examples.stream_with_stray_agent]
  = ([print (text "data directory: " "data")], inl (KeyError (JStr "rex"))) /\
  exists good bad rest e,
    [inr Examples.session; inr Examples.stream_with_stray_agent]
      = good ++ bad :: rest /\
    Forall loads good /\ fails_with bad e /\
    files_written (fst (main merge_sort_values Examples.int_frame "data"
      [inr Examples.session; inr Examples.stream_with_stray_agent])) = [].
Proof.
  split; [reflexivity|].
  destruct (malformed_input_raises merge_sort_values Examples.int_frame "data"
              [inr Examples.session; inr Examples.stream_with_stray_agent])
    as (_ & good & bad & rest & e & Hfiles & Hgood & Hbad & _ & Hnone).
  - apply Exists_cons. right. apply Exists_cons. left.
    apply (unlisted_agent _ [Examples.agent_ "ann" "homo sapiens"]
             [Examples.stray_event] Examples.stray_event (JStr "rex"));
      try reflexivity.
    + by left.
    + intros ag id [<-|[]] [= <-] (k & Hk & Hk').
      injection Hk as <-. discriminate Hk'.
  - by exists good, bad, rest, e.
Defined.


(** * Part 14: further properties of [tabulate] *)

Import MoreProps.

Lemma dict_get_app {V} (items extra : list (string * V)) (k : string) :
  dict_get (items ++ extra) k =
  match dict_get items k with
  | Some v => Some v
  | None => dict_get extra k
  end.
Proof.
  induction items as [|[k' v] items IH]; simpl; [done|].
  by destruct (String.eqb k' k).
Qed.

(** A stream that is a dict raises [KeyError] for the first field it lacks,
    in the order the code reads them; for [events], the last one read, this
    needs the agents to have been read without error. *)
Theorem tabulate_first_missing_field (items : list (string * json)) (f : string) :
  first_missing items stream_field_names = Some f ->
  (f = "events" ->
   exists agents d,
     getitem (JObj items) "agents" ≫= iter = inr agents /\
     agent2species_comprehension agents ∅ = inr d) ->
  tabulate (JObj items) = inl (KeyError (JStr f)).
Proof.
  unfold tabulate, stream_field_names. simpl.
  destruct (dict_get items "id"); simpl; [|by intros [= <-]].
  destruct (dict_get items "provenance"); simpl; [|by intros [= <-]].
  destruct (dict_get items "start"); simpl; [|by intros [= <-]].
  destruct (dict_get items "end"); simpl; [|by intros [= <-]].
  destruct (dict_get items "agents") as [ags|]; simpl; [|by intros [= <-]].
  destruct (dict_get items "events"); simpl; [done|].
  intros [= <-] H. destruct (H eq_refl) as (agents & d & Hags & Hd).
  rewrite Hags. simpl. rewrite Hd. reflexivity.
Qed.

Lemma tabulate_first_missing_field_witness :
  tabulate (JObj [("id", JStr "s"); ("provenance", JNull); ("end", JNull)])
  = inl (KeyError (JStr "start")).
Proof.
  apply tabulate_first_missing_field; [reflexivity | discriminate].
Defined.

Lemma comprehension_inr_entries (agents : list json) :
  forall d d', agent2species_comprehension agents d = inr d' ->
  Forall (fun ag => exists k sp, agent_entry ag k sp) agents.
Proof.
  induction agents as [|a agents IH]; intros d d' H; [constructor|].
  simpl in H. inv_bind H. constructor; [|by eapply IH].
  exists x1, x0. split; [|done]. by rewrite Hx.
Qed.

(** When [tabulate] returns, the input was well formed: the six fields were
    there, every agent had a species and an id that can be a dict key, every
    event had its six fields and named a listed agent; and there is one row
    per event, in order. *)
Theorem tabulate_returns_only_on_well_formed (s : json) (rows : list row) :
  tabulate s = inr rows ->
  exists file_id provenance start end_ agents events,
    getitem s "id" = inr file_id /\
    getitem s "provenance" = inr provenance /\
    getitem s "start" = inr start /\
    getitem s "end" = inr end_ /\
    getitem s "agents" ≫= iter = inr agents /\
    getitem s "events" ≫= iter = inr events /\
    Forall (fun ag => exists k sp, agent_entry ag k sp) agents /\
    Forall (fun e => exists i a t st en c,
              event_fields e i a t st en c /\ agent_listed agents a) events /\
    Forall2 (row_of_event file_id provenance start end_) events rows.
Proof.
  intros H. apply tabulate_inr in H
    as (fid & p & st & en & ags & d & evs & Hf & Hp & Hst & Hen & Hags & Hd
        & Hevs & Hrows).
  exists fid, p, st, en, ags, evs. do 6 (split; [done|]).
  split; [by eapply comprehension_inr_entries|].
  assert (forall e r, tabulate_row fid p st en d e = inr r ->
            (exists i a t st' en' c,
               event_fields e i a t st' en' c /\ agent_listed ags a) /\
            row_of_event fid p st en e r) as Hrow.
  { intros e r Hr. apply tabulate_row_inr in Hr
      as (i & a & t & st' & en' & c & k & sp & He & Hk & Hsp & ->).
    split; [|by exists i, a, t, st', en', c, sp].
    exists i, a, t, st', en', c. split; [done|].
    pose proof (comprehension_lookup ags _ _ Hd k) as Hlook.
    rewrite Hsp, lookup_empty in Hlook.
    destruct (last_agent ags k) as [ag|] eqn:Hlast; [|done].
    apply last_agent_Some in Hlast as [Hin Hid]. by exists k, ag. }
  split.
  - clear -Hrows Hrow. induction Hrows as [|e r evs rows Hr _ IH]; constructor.
    + by apply (Hrow e r).
    + exact IH.
  - eapply Forall2_impl; [exact Hrows|]. intros e r Hr. by apply Hrow.
Qed.

Lemma tabulate_returns_only_on_well_formed_witness :
  exists rows agents events,
    tabulate Examples.session = inr rows /\
    getitem Examples.session "agents" ≫= iter = inr agents /\
    getitem Examples.session "events" ≫= iter = inr events /\
    Forall (fun e => exists i a t st en c,
              event_fields e i a t st en c /\ agent_listed agents a) events.
Proof.
  destruct (tabulate Examples.session) as [|rows] eqn:E; [discriminate E|].
  destruct (tabulate_returns_only_on_well_formed Examples.session rows E)
    as (f & p & st & en & ags & evs & _ & _ & _ & _ & Hags & Hevs & _ & H & _).
  by exists rows, ags, evs.
Defined.

(** The loop stops at the first event whose row cannot be built, with the
    exception of that event. *)
Lemma tabulate_loop_first_failure (file_id provenance start end_ : json)
    (d : gmap key json) (good rest : list json) (e : json) (x : exn) :
  Forall (fun ev => exists r,
            tabulate_row file_id provenance start end_ d ev = inr r) good ->
  tabulate_row file_id provenance start end_ d e = inl x ->
  forall rows,
    tabulate_loop file_id provenance start end_ d (good ++ e :: rest) rows = inl x.
Proof.
  intros Hgood He. induction Hgood as [|ev good [r Hr] _ IH]; intros rows; simpl.
  - by rewrite He.
  - rewrite Hr. simpl. apply IH.
Qed.

(** The [KeyError] of an unlisted agent carries the agent identifier of the
    first event that names no listed agent: when the stream is otherwise
    well formed and the events before it are fine, [tabulate] raises
    [KeyError] with that event's agent. *)
Theorem tabulate_key_error_names_the_agent
    (s file_id provenance start end_ : json) (agents good rest : list json)
    (e i a t st en c : json) (k : key) :
  stream_fields s file_id provenance start end_ agents (good ++ e :: rest) ->
  Forall (fun ag => exists k sp, agent_entry ag k sp) agents ->
  Forall (fun ev => exists i a t st en c,
            event_fields ev i a t st en c /\ agent_listed agents a) good ->
  event_fields e i a t st en c ->
  hash a = inr k ->
  (forall ag, In ag agents -> agent_has_id k ag = false) ->
  tabulate s = inl (KeyError a).
Proof.
  intros (Hf & Hp & Hst & Hen & Hags & Hevs) Hagents Hgood He Hk Hno.
  destruct (comprehension_returns agents Hagents ∅) as [d Hd].
  unfold tabulate. rewrite Hf, Hp, Hst, Hen, Hags. simpl. rewrite Hd, Hevs. simpl.
  apply tabulate_loop_first_failure.
  - eapply Forall_impl; [exact Hgood|]. simpl.
    intros ev (i' & a' & t' & st' & en' & c' & Hev & k' & ag & Hk' & Hin & Hid).
    destruct (last_agent agents k') as [ag'|] eqn:Hlast.
    2:{ rewrite last_agent_None in Hlast. rewrite (Hlast _ Hin) in Hid.
        discriminate. }
    apply last_agent_Some in Hlast as Hag'. destruct Hag' as [Hin' _].
    rewrite Forall_forall in Hagents.
    destruct (Hagents _ (proj2 (list_elem_of_In _ _) Hin')) as (k'' & sp & _ & Hsp).
    pose proof (comprehension_lookup agents _ _ Hd k') as Hlook.
    rewrite Hlast, Hsp in Hlook.
    eexists. apply tabulate_row_inr. exists i', a', t', st', en', c', k', sp. eauto.
  - destruct He as (Hi & Ha & Ht & Hs & Hn & Hc).
    unfold tabulate_row, agent2species_getitem.
    rewrite Hi, Ha, Ht, Hs, Hn. simpl. rewrite Hk. simpl.
    rewrite (comprehension_lookup agents _ _ Hd k), lookup_empty.
    by rewrite (proj2 (last_agent_None agents k) Hno).
Qed.

Lemma tabulate_key_error_names_the_agent_witness :
  tabulate Examples.stream_with_stray_agent = inl (KeyError (JStr "rex")).
Proof.
  apply (tabulate_key_error_names_the_agent Examples.stream_with_stray_agent
           (JStr "s2") (JStr "home") (JInt 0) (JInt 100)
           [Examples.agent_ "ann" "homo sapiens"] [] []
           Examples.stray_event (JStr "e1") (JStr "rex") (JStr "button_press")
           (JInt 10) (JInt 12) (JStr "walk") (KStr "rex")).
  - by repeat split.
  - repeat constructor.
    exists (KStr "ann"), (JStr "homo sapiens"). by split.
  - constructor.
  - by repeat split.
  - reflexivity.
  - intros ag [<-|[]]. reflexivity.
Defined.

(** Fields beyond the ones read are ignored: further items of the stream,
    and further items of an event, under names the code does not read,
    change nothing. *)
Theorem tabulate_ignores_other_fields :
  (forall items extra,
     (forall f, In f stream_field_names -> dict_get extra f = None) ->
     tabulate (JObj (items ++ extra)) = tabulate (JObj items)) /\
  (forall file_id provenance start end_ d items extra,
     (forall f, In f event_field_names -> dict_get extra f = None) ->
     tabulate_row file_id provenance start end_ d (JObj (items ++ extra)) =
     tabulate_row file_id provenance start end_ d (JObj items)).
Proof.
  split.
  - intros items extra Hextra.
    assert (forall f, In f stream_field_names ->
              getitem (JObj (items ++ extra)) f = getitem (JObj items) f) as Hget.
    { intros f Hf. simpl. rewrite dict_get_app, (Hextra f Hf).
      by destruct (dict_get items f). }
    unfold tabulate.
    rewrite !Hget by (simpl; auto 10). reflexivity.
  - intros file_id provenance start end_ d items extra Hextra.
    assert (forall f, In f event_field_names ->
              getitem (JObj (items ++ extra)) f = getitem (JObj items) f) as Hget.
    { intros f Hf. simpl. rewrite dict_get_app, (Hextra f Hf).
      by destruct (dict_get items f). }
    unfold tabulate_row.
    rewrite !Hget by (simpl; auto 10). reflexivity.
Qed.

Lemma tabulate_ignores_other_fields_witness :
  tabulate (JObj ([("id", JStr "s"); ("provenance", JNull); ("start", JNull);
                   ("end", JNull); ("agents", JArr []); ("events", JArr [])]
                  ++ [("device", JStr "board 7")]))
  = inr [].
Proof.
  rewrite (proj1 tabulate_ignores_other_fields); [reflexivity|].
  intros f Hf. simpl in Hf.
  repeat (destruct Hf as [<-|Hf]; [reflexivity|]). destruct Hf.
Defined.

Lemma List_filter_Permutation {X} (p : X -> bool) (l l' : list X) :
  l ≡ₚ l' -> List.filter p l ≡ₚ List.filter p l'.
Proof.
  induction 1 as [|x l l' _ IH|x y l|l l' l'' _ IH _ IH']; simpl.
  - done.
  - destruct (p x); [by constructor | done].
  - destruct (p x), (p y); try done. apply perm_swap.
  - by etrans.
Qed.

Lemma short_Permutation_eq {X} (l l' : list X) :
  (length l <= 1)%nat -> l' ≡ₚ l -> l' = l.
Proof.
  intros Hlen Hperm. destruct l as [|x [|y l]]; simpl in Hlen; [| |lia].
  - by apply Permutation_nil_r in Hperm.
  - by apply Permutation_singleton_r in Hperm.
Qed.

(** With no id listed twice, the order of the agents list does not matter:
    a stream that differs from another only in the order of its agents gives
    the same rows. *)
Theorem tabulate_agent_order_irrelevant (s s' : json)
    (agents agents' : list json) (rows : list row) :
  (forall f, In f ["id"; "provenance"; "start"; "end"; "events"] ->
             getitem s' f = getitem s f) ->
  getitem s "agents" = inr (JArr agents) ->
  getitem s' "agents" = inr (JArr agents') ->
  agents' ≡ₚ agents ->
  (forall k, (length (List.filter (agent_has_id k) agents) <= 1)%nat) ->
  tabulate s = inr rows ->
  tabulate s' = inr rows.
Proof.
  intros Hsame Hags Hags' Hperm Honce H.
  apply tabulate_inr in H
    as (fid & p & st & en & ags & d & evs & Hf & Hp & Hst & Hen & Hiags & Hd
        & Hevs & Hrows).
  rewrite Hags in Hiags. simpl in Hiags. injection Hiags as <-.
  pose proof (comprehension_inr_entries agents _ _ Hd) as Hentries.
  rewrite <- Hperm in Hentries.
  destruct (comprehension_returns agents' Hentries ∅) as [d' Hd'].
  assert (d' = d) as ->.
  { apply map_eq. intros k.
    rewrite (comprehension_lookup agents' _ _ Hd' k),
            (comprehension_lookup agents _ _ Hd k).
    unfold last_agent.
    by rewrite (short_Permutation_eq _ _ (Honce k)
                  (List_filter_Permutation (agent_has_id k) _ _ Hperm)). }
  apply tabulate_inr. exists fid, p, st, en, agents', d, evs.
  rewrite !Hsame by (simpl; auto 10). rewrite Hags'. repeat split; try done.
  rewrite Hsame by (simpl; auto 10). exact Hevs.
Qed.

Lemma tabulate_agent_order_irrelevant_witness :
  tabulate
    (Examples.stream_ "s1"
       [Examples.agent_ "ann" "homo sapiens";
        Examples.agent_ "rex" "canis familiaris"]
       [Examples.event_ "e1" "ann" 10 12 "walk";
        Examples.event_ "e2" "rex" 15 16 "walk";
        Examples.event_ "e3" "rex" 20 21 "play"])
  = tabulate Examples.session.
Proof.
  destruct (tabulate Examples.session) as [|rows] eqn:E; [discriminate E|].
  apply (tabulate_agent_order_irrelevant Examples.session _
           [Examples.agent_ "rex" "canis familiaris";
            Examples.agent_ "ann" "homo sapiens"]
           [Examples.agent_ "ann" "homo sapiens";
            Examples.agent_ "rex" "canis familiaris"]);
    try reflexivity; try exact E.
  - intros f Hf. simpl in Hf.
    repeat (destruct Hf as [<-|Hf]; [reflexivity|]). destruct Hf.
  - apply perm_swap.
  - intros k. simpl. unfold agent_has_id. simpl.
    repeat case_bool_decide; simpl; try lia. congruence.
Defined.

(** * Part 15: further properties of [main] and [button_count] *)

Lemma tabulate_length (s : json) (rows : list row) :
  tabulate s = inr rows -> length rows = events_count s.
Proof.
  intros H. apply tabulate_inr in H
    as (fid & p & st & en & ags & d & evs & _ & _ & _ & _ & _ & _ & Hevs & Hrows).
  unfold events_count. rewrite Hevs. symmetry. by eapply Forall2_length.
Qed.

Section MoreMain.
Variable sort_values : DataFrame -> DataFrame.
Variable make_frame : list row -> result DataFrame.

(** The files after the first one that fails are never reached: whatever
    they hold, the run ends with the exception of that file, after the one
    printed line. *)
Theorem main_stops_at_first_failure (data_dir : string)
    (good rest rest' : list (result json)) (bad : result json) (e : exn) :
  Forall loads good -> fails_with bad e ->
  main sort_values make_frame data_dir (good ++ bad :: rest) =
    ([print (text "data directory: " data_dir)], inl e) /\
  main sort_values make_frame data_dir (good ++ bad :: rest') =
    main sort_values make_frame data_dir (good ++ bad :: rest).
Proof.
  intros Hgood Hbad. rewrite !main_unfold.
  by rewrite !(load_rows_first_failure good _ bad e Hgood Hbad).
Qed.

(** The table is built from as many rows as the files have events: when the
    loading loop returns, every file was a loaded stream, and the number of
    rows is the sum of the numbers of their events. *)
Theorem load_rows_one_row_per_event (files : list (result json))
    (rows : list row) :
  load_rows files [] = inr rows ->
  exists streams,
    files = map inr streams /\
    length rows = sum_list (map events_count streams).
Proof.
  intros H. apply load_rows_inr in H as (streams & per_file & -> & H & ->).
  exists streams. split; [done|]. simpl. clear -H.
  induction H as [|s rs streams per_file Hrs _ IH]; simpl; [done|].
  by rewrite length_app, IH, (tabulate_length s rs Hrs).
Qed.

End MoreMain.

Lemma main_stops_at_first_failure_witness :
  main merge_sort_values Examples.int_frame "data"
    ([inr Examples.session] ++ inr Examples.stream_with_stray_agent
       :: [inl JSONDecodeError])
  = ([print (text "data directory: " "data")], inl (KeyError (JStr "rex"))).
Proof.
  apply (main_stops_at_first_failure merge_sort_values Examples.int_frame "data"
           [inr Examples.session] [inl JSONDecodeError] []
           (inr Examples.stream_with_stray_agent) (KeyError (JStr "rex"))).
  - repeat constructor.
    destruct (tabulate Examples.session) as [|rows] eqn:E; [discriminate E|].
    by exists Examples.session, rows.
  - right. by exists Examples.stream_with_stray_agent.
Defined.

Lemma load_rows_one_row_per_event_witness :
  exists rows,
    load_rows [inr Examples.session; inr Examples.stream_with_twice_listed_agent]
              [] = inr rows /\
    length rows = 4%nat.
Proof.
  destruct (load_rows [inr Examples.session;
                       inr Examples.stream_with_twice_listed_agent] [])
    as [|rows] eqn:E; [discriminate E|].
  exists rows. split; [reflexivity|].
  destruct (load_rows_one_row_per_event _ rows E) as (streams & Hs & ->).
  destruct streams as [|s1 [|s2 [|s3 streams]]]; try discriminate Hs.
  injection Hs as <- <-. reflexivity.
Defined.

(** ** The bars of [button_count] *)

Section CounterTotals.
Context {K : Type} `{EqDecision K}.

Lemma counter_add_total (k : K) (c : list (K * nat)) :
  sum_list (map snd (counter_add k c)) = S (sum_list (map snd c)).
Proof.
  induction c as [|[k' n] c IH]; simpl; [done|].
  destruct (decide (k = k')); simpl; [done|]. rewrite IH. lia.
Qed.

(** The counts of a counter add up to the number of elements counted. *)
Lemma Counter_total (xs : list K) :
  sum_list (map snd (Counter xs)) = length xs.
Proof.
  unfold Counter.
  assert (forall c, sum_list (map snd (fold_left (fun c k => counter_add k c) xs c))
                    = (sum_list (map snd c) + length xs)%nat) as H.
  { induction xs as [|x xs IH]; intros c; simpl; [lia|].
    rewrite IH, counter_add_total. lia. }
  by rewrite H.
Qed.

(** The items [most_common] lists: every element once, with the number of
    its occurrences. *)
Lemma most_common_Counter_items (xs : list K) :
  NoDup (map fst (most_common (Counter xs))) /\
  forall k n, (k, n) ∈ most_common (Counter xs) <->
              k ∈ xs /\ n = occurrences k xs.
Proof.
  destruct (Counter_keys xs) as [Hnd Hkeys]. split.
  - by rewrite most_common_perm.
  - intros k n. rewrite most_common_perm. split.
    + intros Hin. split.
      * apply Hkeys. apply list_elem_of_fmap. by exists (k, n).
      * by rewrite <- (Counter_get xs k), (counter_get_elem _ k n Hnd Hin).
    + intros [Hk ->]. apply Hkeys in Hk.
      apply list_elem_of_fmap in Hk as ([k' n] & -> & Hin). simpl.
      by rewrite <- (Counter_get xs k'), (counter_get_elem _ k' n Hnd Hin).
Qed.

End CounterTotals.

(** The chart of [button_count] has one bar per content of the presses that
    pass its filter, with the number of such presses, in non-decreasing
    order of that number; the bars add up to the number of presses that
    pass.  The same bars are printed. *)
Theorem button_count_bars (df : DataFrame) :
  fst (button_count df) =
    [ print (series (button_bars df));
      savefig "data/button_count" (barh (button_bars df)) ] /\
  Sorted count_le (button_bars df) /\
  NoDup (map fst (button_bars df)) /\
  (forall c n, (c, n) ∈ button_bars df <->
     c ∈ map content (List.filter button_count_mask df) /\
     n = occurrences c (map content (List.filter button_count_mask df))) /\
  sum_list (map snd (button_bars df)) =
    length (List.filter button_count_mask df).
Proof.
  unfold button_bars, value_counts.
  set (xs := map content (List.filter button_count_mask df)).
  destruct (most_common_Counter_items xs) as [Hnd Hitems].
  split; [reflexivity|]. split; [|split; [|split]].
  - rewrite rev_alt. fold (reverse (most_common (Counter xs))).
    apply (Sorted_reverse count_ge), most_common_sorted.
  - by rewrite map_rev, <- Permutation_rev.
  - intros c n. rewrite <- Hitems. by rewrite <- Permutation_rev.
  - rewrite <- Permutation_rev, most_common_perm, Counter_total.
    unfold xs. by rewrite length_map.
Qed.

(** ** The filters *)

Lemma prefix_append (pat s : string) :
  String.prefix pat s = true <-> exists post, s = (pat ++ post)%string.
Proof.
  revert s. induction pat as [|a pat IH]; intros s; simpl.
  - destruct s; (split; [intros _; eexists; reflexivity | done]).
  - destruct s as [|b s]; simpl.
    + split; [done | intros [post H]; discriminate].
    + destruct (Ascii.ascii_dec a b) as [->|Hne].
      * rewrite IH. split; intros [post H]; exists post; simpl in *.
        -- by rewrite H.
        -- by injection H.
      * split; [done | intros [post H]; simpl in H; injection H as -> _; by destruct Hne].
Qed.

(** [str_contains] finds the pattern wherever it occurs. *)
Lemma str_contains_occurs_in (pat s : string) :
  str_contains pat s = true <-> occurs_in pat s.
Proof.
  unfold occurs_in. induction s as [|b s IH]; cbn [str_contains].
  - rewrite orb_false_r, prefix_append. split.
    + intros [post H]. by exists EmptyString, post.
    + intros (pre & post & H). destruct pre; [by exists post|discriminate].
  - rewrite orb_true_iff, IH, prefix_append. split.
    + intros [[post H]|(pre & post & H)].
      * by exists EmptyString, post.
      * exists (String b pre), post. simpl. by rewrite H.
    + intros (pre & post & H). destruct pre as [|b' pre]; simpl in H.
      * left. by exists post.
      * right. exists pre, post. by injection H.
Qed.

Lemma str_contains_false (pat s : string) :
  str_contains pat s = false <-> ~ occurs_in pat s.
Proof.
  rewrite <- str_contains_occurs_in. by destruct (str_contains pat s).
Qed.

Lemma str_eqb_false (a b : string) : str_eqb a b = false <-> a <> b.
Proof. apply String.eqb_neq. Qed.

Lemma str_len_lt (s : string) (n : nat) :
  (str_len s <? Z.of_nat n)%Z = true <-> (String.length s < n)%nat.
Proof. unfold str_len. rewrite Z.ltb_lt. lia. Qed.

(** Which presses the three filters keep.  A press is counted by
    [button_count] exactly when it is a dog's button press whose content is
    not empty, not "null", shorter than ten characters, and holds neither
    "OTHER" nor " or "; the filter of the human n-grams asks the same of a
    human's press; the filter of the canine n-grams is that of
    [button_count] without the test for "null". *)
Theorem filters_keep (r : Row) :
  (button_count_mask r = true <->
     species r = "canis familiaris" /\
     ~ occurs_in "OTHER" (content r) /\ ~ occurs_in " or " (content r) /\
     content r <> "" /\ content r <> "null" /\
     (String.length (content r) < 10)%nat /\
     event_type r = "button_press") /\
  (human_mask r = true <->
     species r = "homo sapiens" /\
     ~ occurs_in "OTHER" (content r) /\ ~ occurs_in " or " (content r) /\
     content r <> "" /\ content r <> "null" /\
     (String.length (content r) < 10)%nat /\
     event_type r = "button_press") /\
  (canine_mask r = true <->
     species r = "canis familiaris" /\
     ~ occurs_in "OTHER" (content r) /\ ~ occurs_in " or " (content r) /\
     content r <> "" /\
     (String.length (content r) < 10)%nat /\
     event_type r = "button_press") /\
  button_count_mask r = canine_mask r && negb (str_eqb (content r) "null").
Proof.
  unfold button_count_mask, human_mask, canine_mask.
  rewrite !andb_true_iff, !negb_true_iff, !str_eqb_eq, !str_eqb_false,
    !str_contains_false, (str_len_lt (content r) 10).
  split; [tauto|]. split; [tauto|]. split; [tauto|].
  destruct (str_eqb (species r) "canis familiaris"),
    (str_contains "OTHER" (content r)), (str_contains " or " (content r)),
    (str_eqb (content r) ""), (str_eqb (content r) "null"),
    (str_len (content r) <? 10)%Z, (str_eqb (event_type r) "button_press");
    reflexivity.
Qed.

Lemma filters_keep_witness :
  button_count_mask (Examples.press 0 "s1" 1 2 "canis familiaris" "null") = false /\
  canine_mask (Examples.press 0 "s1" 1 2 "canis familiaris" "null") = true /\
  canine_mask (Examples.press 0 "s1" 1 2 "canis familiaris" "ball or rope") = false.
Proof.
  pose proof (filters_keep (Examples.press 0 "s1" 1 2 "canis familiaris" "null"))
    as (Hb & _ & Hc & _).
  pose proof (filters_keep (Examples.press 0 "s1" 1 2 "canis familiaris"
                                            "ball or rope")) as (_ & _ & Hc' & _).
  split; [|split].
  - apply not_true_is_false. intros E.
    destruct (proj1 Hb E) as (_ & _ & _ & _ & Hnull & _). by destruct Hnull.
  - apply Hc. simpl. repeat split; try done; try lia.
    + by apply str_contains_false.
    + by apply str_contains_false.
  - apply not_true_is_false. intros E.
    destruct (proj1 Hc' E) as (_ & _ & Hor & _). destruct Hor.
    by exists "ball", "rope".
Defined.

(** * Part 16: further properties of [gap_time] *)

Lemma concat_map_nil {X Y} (ks : list X) :
  concat (map (fun _ => @nil Y) ks) = [].
Proof. induction ks; simpl; auto. Qed.

Lemma concat_filters_cons (by_ : Row -> string) (r : Row) (df : DataFrame)
    (ks : list string) :
  NoDup ks -> by_ r ∈ ks ->
  concat (map (fun k => List.filter (fun x => str_eqb (by_ x) k) (r :: df)) ks)
  ≡ₚ r :: concat (map (fun k => List.filter (fun x => str_eqb (by_ x) k) df) ks).
Proof.
  induction ks as [|k ks IH]; intros Hnd Hin; [by apply elem_of_nil in Hin|].
  apply NoDup_cons in Hnd as [Hk Hnd]. simpl.
  destruct (str_eqb (by_ r) k) eqn:E.
  - apply str_eqb_eq in E. simpl. constructor. apply Permutation_app_head.
    rewrite (map_ext_in _ (fun k' => List.filter (fun x => str_eqb (by_ x) k') df));
      [done|].
    intros k' Hk'. simpl. destruct (str_eqb (by_ r) k') eqn:E'; [|done].
    apply str_eqb_eq in E'. subst. destruct Hk. by apply list_elem_of_In.
  - apply str_eqb_false in E. apply elem_of_cons in Hin as [Hin|Hin]; [done|].
    rewrite (IH Hnd Hin). by rewrite Permutation_middle.
Qed.

(** The groups of [groupby] hold every row once. *)
Lemma groupby_concat (by_ : Row -> string) (df : DataFrame) :
  concat (map snd (groupby by_ df)) ≡ₚ df.
Proof.
  unfold groupby. rewrite map_map. simpl.
  assert (forall ks, NoDup ks -> (forall r, r ∈ df -> by_ r ∈ ks) ->
            concat (map (fun k => List.filter (fun x => str_eqb (by_ x) k) df) ks)
            ≡ₚ df) as H.
  { induction df as [|r df IH]; intros ks Hnd Hcover.
    - simpl. by rewrite concat_map_nil.
    - rewrite concat_filters_cons; [|done|apply Hcover; by left].
      constructor. apply IH; [done|]. intros x Hx. apply Hcover. by right. }
  apply H.
  - rewrite merge_sort_Permutation. apply NoDup_remove_dups.
  - intros r Hr. rewrite merge_sort_Permutation, elem_of_remove_dups.
    apply list_elem_of_fmap. by exists r.
Qed.

Lemma groupby_groups (by_ : Row -> string) (df : DataFrame) :
  Forall (fun g => snd g = List.filter (fun r => str_eqb (by_ r) (fst g)) df /\
                   snd g <> [])
         (groupby by_ df).
Proof.
  apply Forall_forall. intros [k g] Hg. apply groupby_elem in Hg as [Hk ->].
  split; [done|]. simpl.
  apply list_elem_of_fmap in Hk as (r & -> & Hr). intros Hnil.
  assert (In r (List.filter (fun x => str_eqb (by_ x) (by_ r)) df)) as Hin.
  { apply filter_In. split; [by apply list_elem_of_In | by apply str_eqb_eq]. }
  rewrite Hnil in Hin. destruct Hin.
Qed.

#[local] Instance start_le_trans : Transitive start_le.
Proof. intros a b c. unfold start_le. lia. Qed.

Lemma rename_never (s : string) :
  rename s <> "canis familiaris" /\ rename s <> "homo sapeins".
Proof.
  unfold rename.
  destruct (String.eqb s "homo sapeins") eqn:E1; [done|].
  destruct (String.eqb s "canis familiaris") eqn:E2; [done|].
  apply String.eqb_neq in E1, E2. done.
Qed.

Section MoreGapTime.
Variable sort_values : DataFrame -> DataFrame.
Hypothesis sort_values_perm : forall df, sort_values df ≡ₚ df.

(** Grouping, sorting and putting the groups together again loses no row
    and repeats none: the gap-time frame holds the rows of the table, each
    once; the frame that is plotted holds each twice, once under its renamed
    species and once under "total". *)
Theorem gap_time_keeps_every_row (df : DataFrame) :
  NoDup (map index df) ->
  map table_row (gaps_by_file sort_values df) ≡ₚ df /\
  length (gaps_frame sort_values df) = (2 * length df)%nat.
Proof.
  intros Hnd.
  assert (map table_row (gaps_by_file sort_values df) ≡ₚ df) as Hrows.
  { rewrite <- (groupby_concat file_id df) at 2. unfold gaps_by_file.
    pose proof (groupby_groups file_id df) as Hgroups.
    induction Hgroups as [|[k g] groups [Hg _] _ IH]; simpl; [done|].
    simpl in Hg. rewrite map_app, IH. apply Permutation_app_tail.
    rewrite Hg. fold (rows_of_file k df).
    rewrite _gap_time_rows by by apply sorted_group_NoDup.
    apply sort_values_perm. }
  split; [exact Hrows|].
  rewrite gaps_frame_unfold, length_app, !length_map.
  apply Permutation_length in Hrows. rewrite length_map in Hrows. lia.
Qed.

(** No point of the plot is labelled "canis familiaris" or "homo sapeins":
    both are renamed; and renaming twice is renaming once. *)
Theorem gap_time_labels (df : DataFrame) (g : GapRow) :
  g ∈ gaps_frame sort_values df ->
  species (table_row g) <> "canis familiaris" /\
  species (table_row g) <> "homo sapeins" /\
  rename (species (table_row g)) = species (table_row g).
Proof.
  rewrite gaps_frame_unfold, elem_of_app, !list_elem_of_fmap.
  intros [(g' & -> & _)|(g' & -> & _)]; simpl.
  - destruct (rename_never (species (table_row g'))) as [H1 H2].
    split; [done|]. split; [done|]. unfold rename at 1.
    by rewrite (proj2 (String.eqb_neq _ _) H1), (proj2 (String.eqb_neq _ _) H2).
  - done.
Qed.

End MoreGapTime.

Section SortIrrelevant.
Variables sort1 sort2 : DataFrame -> DataFrame.
Hypothesis sort1_perm : forall df, sort1 df ≡ₚ df.
Hypothesis sort1_sorted : forall df, Sorted start_le (sort1 df).
Hypothesis sort2_perm : forall df, sort2 df ≡ₚ df.
Hypothesis sort2_sorted : forall df, Sorted start_le (sort2 df).

(** When no two events of one file start at the same time, the gap-time
    frame and the plot do not depend on how [sort_values] orders equal
    keys: any two sorts by start give the same result. *)
Theorem gap_time_sort_irrelevant (df : DataFrame) :
  (forall r1 r2, r1 ∈ df -> r2 ∈ df ->
     file_id r1 = file_id r2 -> start r1 = start r2 -> r1 = r2) ->
  gaps_by_file sort1 df = gaps_by_file sort2 df /\
  gap_time sort1 df = gap_time sort2 df.
Proof.
  intros Hdistinct.
  assert (gaps_by_file sort1 df = gaps_by_file sort2 df) as H.
  { unfold gaps_by_file. f_equal. apply map_ext_in. intros [k g] Hg.
    apply list_elem_of_In, groupby_elem in Hg as [_ ->]. simpl.
    set (g := List.filter (fun r => str_eqb (file_id r) k) df).
    assert (sort1 g = sort2 g) as Hsame.
    { apply (Sorted_unique_strong start_le); [|done|done|].
      - intros x1 x2 H1 H2 H12 H21.
        rewrite sort1_perm in H1. rewrite sort2_perm in H2.
        apply list_elem_of_In, filter_In in H1 as [H1 Hk1].
        apply list_elem_of_In, filter_In in H2 as [H2 Hk2].
        apply str_eqb_eq in Hk1, Hk2.
        apply Hdistinct; try by apply list_elem_of_In.
        + congruence.
        + unfold start_le in *. lia.
      - by rewrite sort1_perm, sort2_perm. }
    unfold _gap_time. by rewrite Hsame. }
  split; [exact H|]. unfold gap_time, gaps_frame. by rewrite H.
Qed.

End SortIrrelevant.

Lemma table_index_NoDup : NoDup (map index Examples.table).
Proof. apply (bool_decide_unpack _). vm_compute. exact I. Qed.

Lemma gap_time_keeps_every_row_witness :
  map table_row (gaps_by_file merge_sort_values Examples.table)
    ≡ₚ Examples.table /\
  length (gaps_frame merge_sort_values Examples.table) = 10%nat.
Proof.
  apply (gap_time_keeps_every_row merge_sort_values merge_sort_values_perm
           Examples.table table_index_NoDup).
Defined.

Lemma gap_time_labels_witness :
  exists g,
    gaps_frame merge_sort_values Examples.table !! 1%nat = Some g /\
    species (table_row g) <> "canis familiaris" /\
    species (table_row g) <> "homo sapeins" /\
    rename (species (table_row g)) = species (table_row g).
Proof.
  destruct (gaps_frame merge_sort_values Examples.table !! 1%nat) as [g|] eqn:E;
    [|discriminate E].
  exists g. split; [reflexivity|].
  apply (gap_time_labels merge_sort_values Examples.table g).
  by apply list_elem_of_lookup_2 in E.
Defined.

Lemma merge_sort_values_from_last_perm (df : DataFrame) :
  merge_sort_values_from_last df ≡ₚ df.
Proof.
  unfold merge_sort_values_from_last.
  by rewrite merge_sort_values_perm, <- Permutation_rev.
Qed.

Lemma merge_sort_values_from_last_sorted (df : DataFrame) :
  Sorted start_le (merge_sort_values_from_last df).
Proof. apply merge_sort_values_sorted. Qed.

Lemma gap_time_sort_irrelevant_witness :
  gaps_by_file merge_sort_values Examples.table =
    gaps_by_file merge_sort_values_from_last Examples.table /\
  gap_time merge_sort_values Examples.table =
    gap_time merge_sort_values_from_last Examples.table.
Proof.
  apply (gap_time_sort_irrelevant merge_sort_values merge_sort_values_from_last
           merge_sort_values_perm merge_sort_values_sorted
           merge_sort_values_from_last_perm merge_sort_values_from_last_sorted
           Examples.table).
  intros r1 r2 H1 H2 Hfile Hstart.
  apply list_elem_of_In in H1, H2. simpl in H1, H2.
  repeat (destruct H1 as [<-|H1]);
    try (destruct H1);
    repeat (destruct H2 as [<-|H2]);
    try (destruct H2); try reflexivity; try discriminate Hfile;
    try discriminate Hstart.
Defined.

(** * Part 17: further properties of [clock] and [ngrams] *)

Lemma hour_move (ns days : Z) :
  hour (ns + days * nanoseconds_per_day) = hour ns.
Proof.
  unfold hour, nanoseconds_per_day.
  replace (ns + days * (24 * 3600000000000))
    with (ns + (days * 24) * 3600000000000) by lia.
  rewrite Z.div_add by lia. apply Z_mod_plus_full.
Qed.

(** The clock chart looks at the time of day only: moving events by whole
    days, each by its own number of days, leaves it as it is. *)
Theorem clock_ignores_the_date (days : Row -> Z) (df : DataFrame) :
  clock (map (move_by_days days) df) = clock df.
Proof.
  unfold clock. do 4 f_equal. unfold clock_hours.
  induction df as [|r df IH]; simpl; [done|].
  destruct (str_eqb (species r) "canis familiaris"); simpl; [|exact IH].
  by rewrite IH, hour_move.
Qed.

Lemma fold_min_in (x : Z) (xs : list Z) : In (fold_right Z.min x xs) (x :: xs).
Proof.
  induction xs as [|y xs IH]; simpl; [auto|].
  destruct (Z.min_spec y (fold_right Z.min x xs)) as [[_ ->]|[_ ->]]; [auto|].
  destruct IH as [<-|IH]; auto.
Qed.

Lemma fold_max_in (x : Z) (xs : list Z) : In (fold_right Z.max x xs) (x :: xs).
Proof.
  induction xs as [|y xs IH]; simpl; [auto|].
  destruct (Z.max_spec y (fold_right Z.max x xs)) as [[_ ->]|[_ ->]]; [|auto].
  destruct IH as [<-|IH]; auto.
Qed.

Lemma histogram_range_Permutation (a a' : list Z) :
  a ≡ₚ a' -> histogram_range a = histogram_range a'.
Proof.
  intros Hperm. destruct a as [|x xs], a' as [|y ys].
  - done.
  - by apply Permutation_nil in Hperm.
  - by apply Permutation_nil_r in Hperm.
  - assert (forall z, In z (x :: xs) <-> In z (y :: ys)) as Hin.
    { intros z. rewrite <- !list_elem_of_In. by rewrite Hperm. }
    unfold histogram_range.
    assert (fold_right Z.min x xs = fold_right Z.min y ys) as ->.
    { pose proof (fold_min_bounds x xs _ (proj2 (Hin _) (fold_min_in y ys))).
      pose proof (fold_min_bounds y ys _ (proj1 (Hin _) (fold_min_in x xs))).
      lia. }
    assert (fold_right Z.max x xs = fold_right Z.max y ys) as ->.
    { pose proof (fold_max_bounds x xs _ (proj2 (Hin _) (fold_max_in y ys))).
      pose proof (fold_max_bounds y ys _ (proj1 (Hin _) (fold_max_in x xs))).
      lia. }
    reflexivity.
Qed.

Lemma histogram_Permutation (a a' : list Z) (bins : Z) :
  a ≡ₚ a' -> histogram a bins = histogram a' bins.
Proof.
  intros Hperm. unfold histogram.
  rewrite (histogram_range_Permutation a a' Hperm).
  apply map_ext. intros i. apply Permutation_length.
  by apply List_filter_Permutation.
Qed.

(** The clock chart does not depend on the order of the rows of the table,
    and so not on the order in which the files were read. *)
Theorem clock_ignores_row_order (df df' : DataFrame) :
  df ≡ₚ df' -> clock df = clock df'.
Proof.
  intros Hperm. unfold clock. do 3 f_equal. apply histogram_Permutation.
  unfold clock_hours. apply Permutation_map. by apply List_filter_Permutation.
Qed.

Lemma clock_ignores_row_order_witness :
  clock (rev Examples.table) = clock Examples.table.
Proof. apply clock_ignores_row_order. symmetry. apply Permutation_rev. Defined.

(** ** The n-grams *)

Lemma occurrences_pos {K} `{EqDecision K} (k : K) (xs : list K) :
  k ∈ xs -> (1 <= occurrences k xs)%nat.
Proof.
  unfold occurrences. induction 1 as [k xs|k y xs _ IH]; simpl.
  - rewrite bool_decide_eq_true_2 by done. simpl. lia.
  - destruct (bool_decide (y = k)); simpl; lia.
Qed.

Lemma sorted_pair_ordered (x y a b : string) :
  sorted_pair x y = (a, b) -> String.leb a b = true.
Proof.
  unfold sorted_pair, String.ltb, String.leb.
  destruct (String.compare y x) eqn:E; intros [= <- <-].
  - apply String.compare_eq_iff in E as ->.
    pose proof (String.compare_antisym x x) as H.
    destruct (String.compare x x); simpl in H; congruence.
  - by rewrite E.
  - by rewrite String.compare_antisym, E.
Qed.

Lemma group_lengths (groups : list (string * DataFrame)) :
  Forall (fun g => snd g <> []) groups ->
  (length (flat_map (fun g => group_pairs (snd g)) groups) + length groups
   = length (concat (map snd groups)))%nat.
Proof.
  induction 1 as [|[k g] groups Hg _ IH]; simpl; [done|].
  rewrite !length_app, group_pairs_length. simpl in Hg.
  destruct g as [|r g]; [done|]. simpl. lia.
Qed.

(** A file gives one pair fewer than it has filtered rows: the number of
    pairs and the number of files that have a filtered row add up to the
    number of filtered rows. *)
Theorem ngrams_list_length (tokens : DataFrame) :
  (length (ngrams_list tokens) + length (remove_dups (map file_id tokens))
   = length tokens)%nat.
Proof.
  unfold ngrams_list.
  assert (length (groupby file_id tokens)
          = length (remove_dups (map file_id tokens))) as <-.
  { unfold groupby. rewrite length_map. apply Permutation_length.
    apply merge_sort_Permutation. }
  rewrite group_lengths.
  - apply Permutation_length, groupby_concat.
  - eapply Forall_impl; [apply groupby_groups|]. simpl. tauto.
Qed.

(** The lines of an n-gram file, for the filter [keep] of the file: the
    counts add up to the number of pairs; every line holds its two contents
    in sorted order, with a count of one at least; and the contents are
    those of two rows of one file that pass the filter. *)
Theorem ngram_lines (keep : Row -> bool) (df : DataFrame) :
  sum_list (map snd (most_common (Counter (ngrams_list (List.filter keep df)))))
    = length (ngrams_list (List.filter keep df)) /\
  forall a b n,
    (a, b, n) ∈ most_common (Counter (ngrams_list (List.filter keep df))) ->
    String.leb a b = true /\ (1 <= n)%nat /\
    exists r1 r2,
      r1 ∈ df /\ r2 ∈ df /\ keep r1 = true /\ keep r2 = true /\
      file_id r1 = file_id r2 /\
      ((content r1 = a /\ content r2 = b) \/ (content r1 = b /\ content r2 = a)).
Proof.
  set (tokens := List.filter keep df).
  split; [by rewrite most_common_perm, Counter_total|].
  intros a b n Hline.
  apply (most_common_Counter_items (ngrams_list tokens)) in Hline as [Hp ->].
  split; [|split; [by apply occurrences_pos|]].
  - unfold ngrams_list in Hp.
    apply list_elem_of_In, in_flat_map in Hp as (g & _ & Hp).
    apply list_elem_of_In, group_pairs_elem in Hp as (? & r1 & r2 & ? & _ & Hp).
    symmetry in Hp. by eapply sorted_pair_ordered.
  - unfold ngrams_list in Hp.
    apply list_elem_of_In, in_flat_map in Hp as ([k g] & Hg & Hp).
    apply list_elem_of_In, groupby_elem in Hg as [_ ->]. simpl in Hp.
    apply list_elem_of_In, group_pairs_elem in Hp
      as (pre & r1 & r2 & post & Hrows & Hp).
    assert (forall r, In r (pre ++ r1 :: r2 :: post) ->
              r ∈ df /\ keep r = true /\ file_id r = k) as Hrow.
    { intros r Hr. rewrite <- Hrows in Hr. apply filter_In in Hr as [Hr Hk].
      apply filter_In in Hr as [Hr Hkeep]. apply str_eqb_eq in Hk.
      split; [by apply list_elem_of_In | done]. }
    destruct (Hrow r1) as (? & ? & ?); [apply in_or_app; right; simpl; auto|].
    destruct (Hrow r2) as (? & ? & ?); [apply in_or_app; right; simpl; auto|].
    exists r1, r2. do 4 (split; [done|]). split; [congruence|].
    destruct (sorted_pair_cases (content r1) (content r2)) as [E|E];
      rewrite E in Hp; injection Hp as -> ->; auto.
Qed.

Lemma ngram_lines_witness :
  String.leb "play" "walk" = true /\
  exists r1 r2,
    r1 ∈ Examples.table /\ r2 ∈ Examples.table /\
    canine_mask r1 = true /\ canine_mask r2 = true /\
    file_id r1 = file_id r2 /\
    ((content r1 = "play" /\ content r2 = "walk") \/
     (content r1 = "walk" /\ content r2 = "play")).
Proof.
  destruct (proj2 (ngram_lines canine_mask Examples.table) "play" "walk" 1%nat)
    as (Hle & _ & H).
  - vm_compute. apply list_elem_of_In. simpl. auto.
  - split; [exact Hle | exact H].
Defined.
